(** * moltbot-internal: retry policy, Telegram API logging and network-error
      classification

    A shallow embedding of [src/infra/retry-policy.ts] and
    [src/telegram/api-logging.ts] (which also carries the network-error
    classifier), with the properties stated for them.

    Modelling conventions.
    - A JavaScript value is a [JsVal]; objects live in a heap ([gmap] from
      addresses to [Obj]) so that identity, sharing and cycles through
      [cause] / [reason] / [errors] are those of the program.  An object's
      property map is what a read ([o.k]) and the [in] operator observe,
      inherited properties included; accessors and proxies are not modelled,
      so reading a property has no effect and never throws.
    - A JavaScript number is an IEEE-754 binary64 value, [spec_float] with
      precision 53 and maximal exponent 1024; [*] is [SFmul].
    - A JavaScript string is a [string]; case mapping and white space are
      those of the ASCII range, other code units stand for themselves.
    - Functions imported from modules that are not part of the sources
      ([formatErrorMessage], [extractErrorCode], [danger], user supplied
      [toString]) are fields of the class [Imports]: every statement holds
      for all of them.  They, the loggers and the [shouldLog] / [shouldRetry]
      predicates handed to the code are functions that return.
    - An asynchronous operation acts on a world (the heap, the console, the
      loggers, the clock) and returns a value or raises an error; what the
      world is made of is a parameter ([Host]). *)

From Stdlib Require Import ZArith NArith QArith Qround Bool List Ascii String Lia.
From Stdlib Require Import Floats.SpecFloat.
From stdpp Require Import base option list gmap strings fin_maps.

Local Open Scope string_scope.
Local Open Scope list_scope.

(* ===================================================================== *)
(** * JavaScript values *)
(* ===================================================================== *)

Module Js.

Abbreviation addr := nat (only parsing).
Abbreviation JsNumber := spec_float (only parsing).

Inductive JsVal : Type :=
| VUndefined
| VNull
| VBool (b : bool)
| VNum (x : JsNumber)
| VBigInt (z : Z)
| VStr (s : string)
| VSymbol (id : nat) (description : string)
| VObj (a : addr).

(** What [typeof] tells apart among objects, and the one imported class the
    code tests with [instanceof].  [RateLimitError] (from "@buape/carbon")
    declares [retryAfter: number]. *)
Inductive ObjKind : Type :=
| KOrdinary
| KArray (elems : list JsVal)
| KFunction
| KRateLimitError (retryAfter : JsNumber).

Record Obj : Type := mkObj {
  obj_kind : ObjKind;
  obj_props : gmap string JsVal
}.

Abbreviation Heap := (gmap nat Obj) (only parsing).

Inductive JsType : Type :=
| TUndefined | TObject | TBoolean | TNumber | TBigInt | TString | TSymbol | TFunction.

Definition typeof (h : Heap) (v : JsVal) : JsType :=
  match v with
  | VUndefined => TUndefined
  | VNull => TObject
  | VBool _ => TBoolean
  | VNum _ => TNumber
  | VBigInt _ => TBigInt
  | VStr _ => TString
  | VSymbol _ _ => TSymbol
  | VObj a =>
      match h !! a with
      | Some {| obj_kind := KFunction |} => TFunction
      | _ => TObject
      end
  end.

Definition is_object_type (t : JsType) : bool :=
  match t with TObject => true | _ => false end.

Definition is_nullish (v : JsVal) : bool :=
  match v with VUndefined | VNull => true | _ => false end.

(** ToBoolean: the falsy values are undefined, null, false, +0, -0, NaN, 0n
    and the empty string. *)
Definition toBoolean (v : JsVal) : bool :=
  match v with
  | VUndefined | VNull => false
  | VBool b => b
  | VNum (S754_zero _) | VNum S754_nan => false
  | VNum _ => true
  | VBigInt z => negb (z =? 0)%Z
  | VStr s => negb (String.eqb s "")
  | VSymbol _ _ => true
  | VObj _ => true
  end.

(** SameValueZero on numbers: NaN equals NaN, +0 equals -0, otherwise IEEE
    equality. *)
Definition number_sameValueZero (x y : JsNumber) : bool :=
  match x, y with
  | S754_nan, S754_nan => true
  | _, _ => SFeqb x y
  end.

(** SameValueZero, the comparison of [Set.prototype.has]. *)
Definition sameValueZero (x y : JsVal) : bool :=
  match x, y with
  | VUndefined, VUndefined => true
  | VNull, VNull => true
  | VBool a, VBool b => Bool.eqb a b
  | VNum a, VNum b => number_sameValueZero a b
  | VBigInt a, VBigInt b => (a =? b)%Z
  | VStr a, VStr b => String.eqb a b
  | VSymbol i d, VSymbol j e => Nat.eqb i j && String.eqb d e
  | VObj a, VObj b => Nat.eqb a b
  | _, _ => false
  end.

(** [o.k]: the value of the property, [undefined] when there is none; a
    primitive or an address without an object has no property the code
    reads. *)
Definition get_prop (h : Heap) (v : JsVal) (k : string) : JsVal :=
  match v with
  | VObj a =>
      match h !! a with
      | Some o => default VUndefined (obj_props o !! k)
      | None => VUndefined
      end
  | _ => VUndefined
  end.

(** ["k" in o] for an object [o]. *)
Definition has_prop (h : Heap) (v : JsVal) (k : string) : bool :=
  match v with
  | VObj a =>
      match h !! a with
      | Some o => bool_decide (is_Some (obj_props o !! k))
      | None => false
      end
  | _ => false
  end.

(** [Array.isArray(v)] together with the elements an array iterator yields. *)
Definition array_elems (h : Heap) (v : JsVal) : option (list JsVal) :=
  match v with
  | VObj a =>
      match h !! a with
      | Some {| obj_kind := KArray elems |} => Some elems
      | _ => None
      end
  | _ => None
  end.

(** [v instanceof RateLimitError], with the instance's [retryAfter]. *)
Definition as_RateLimitError (h : Heap) (v : JsVal) : option JsNumber :=
  match v with
  | VObj a =>
      match h !! a with
      | Some {| obj_kind := KRateLimitError r |} => Some r
      | _ => None
      end
  | _ => None
  end.

(** ** Numbers *)

Definition number_mul (x y : JsNumber) : JsNumber := SFmul 53 1024 x y.

(** The number literal [1000], in canonical form. *)
Definition number_1000 : JsNumber :=
  Eval vm_compute in binary_normalize 53 1024 1000 0 false.

(** [Number.isFinite] on a number. *)
Definition number_isFinite (x : JsNumber) : bool :=
  match x with
  | S754_zero _ | S754_finite _ _ _ => true
  | S754_infinity _ | S754_nan => false
  end.

(** The number of an integer (exact up to [2^53]). *)
Definition number_of_Z (z : Z) : JsNumber := binary_normalize 53 1024 z 0 false.

Definition number_sub (x y : JsNumber) : JsNumber := SFsub 53 1024 x y.

(** [Math.max(x, y)]: NaN when either is NaN, and [+0] above [-0]. *)
Definition Math_max (x y : JsNumber) : JsNumber :=
  match x, y with
  | S754_nan, _ | _, S754_nan => S754_nan
  | S754_zero sx, S754_zero sy => S754_zero (sx && sy)
  | _, _ => if SFltb x y then y else x
  end.

(** The integer part of a finite number, [0] for the others. *)
Definition number_trunc (x : JsNumber) : Z :=
  match x with
  | S754_finite s m e =>
      let a := match e with
               | Zneg p => (Zpos m / 2 ^ Zpos p)%Z
               | _ => (Zpos m * 2 ^ e)%Z
               end in
      if s then (- a)%Z else a
  | _ => 0%Z
  end.

(** ** Strings *)

Definition is_whitespace (c : ascii) : bool :=
  let n := nat_of_ascii c in
  ((9 <=? n)%nat && (n <=? 13)%nat) || (n =? 32)%nat.

Definition upper_char (c : ascii) : ascii :=
  let n := nat_of_ascii c in
  if ((97 <=? n)%nat && (n <=? 122)%nat) then ascii_of_nat (n - 32) else c.

Definition lower_char (c : ascii) : ascii :=
  let n := nat_of_ascii c in
  if ((65 <=? n)%nat && (n <=? 90)%nat) then ascii_of_nat (n + 32) else c.

Fixpoint string_map (f : ascii -> ascii) (s : string) : string :=
  match s with
  | EmptyString => EmptyString
  | String c s' => String (f c) (string_map f s')
  end.

Definition toUpperCase (s : string) : string := string_map upper_char s.
Definition toLowerCase (s : string) : string := string_map lower_char s.

Fixpoint trimStart (s : string) : string :=
  match s with
  | EmptyString => EmptyString
  | String c s' => if is_whitespace c then trimStart s' else s
  end.

Fixpoint trimEnd (s : string) : string :=
  match s with
  | EmptyString => EmptyString
  | String c s' =>
      let t := trimEnd s' in
      if is_whitespace c && String.eqb t "" then EmptyString else String c t
  end.

Definition trim (s : string) : string := trimEnd (trimStart s).

(** [s.includes(sub)] *)
Fixpoint includes (s sub : string) : bool :=
  String.prefix sub s
  || match s with
     | EmptyString => false
     | String _ s' => includes s' sub
     end.

Fixpoint string_forallb (p : ascii -> bool) (s : string) : bool :=
  match s with
  | EmptyString => true
  | String c s' => p c && string_forallb p s'
  end.

(** The decimal digits. *)
Definition is_digit (c : ascii) : bool :=
  existsb (Ascii.eqb c) (list_ascii_of_string "0123456789").

(** The characters of the strings Number::toString returns: the digits,
    [.], [+], [-], [e], and the letters of [NaN] and [Infinity]. *)
Definition number_char (c : ascii) : bool :=
  existsb (Ascii.eqb c) (list_ascii_of_string "0123456789.+-eNaInfity").

(** The same characters after [toUpperCase]. *)
Definition upper_number_char (c : ascii) : bool :=
  existsb (Ascii.eqb c) (list_ascii_of_string "0123456789.+-ENAIFTY").

(** ** Number::toString (ECMA-262, radix 10) *)

Definition digit_char (d : N) : ascii := ascii_of_N (48 + d).

Fixpoint decimal_go (fuel : nat) (n : N) (acc : string) : string :=
  match fuel with
  | O => acc
  | S fuel' =>
      let acc' := String (digit_char (n mod 10)) acc in
      if (n <? 10)%N then acc' else decimal_go fuel' (n / 10)%N acc'
  end.

Definition decimal_of_N (n : N) : string :=
  decimal_go (S (N.to_nat (N.log2 n))) n EmptyString.

Definition decimal_of_Z (z : Z) : string :=
  match z with
  | Zneg p => String "-" (decimal_of_N (Npos p))
  | _ => decimal_of_N (Z.to_N z)
  end.

Fixpoint zeros (n : nat) : string :=
  match n with
  | O => EmptyString
  | S n' => String "0" (zeros n')
  end.

(** [a * 10^p] compared with [b * 2^q], for integers [p], [q] of any sign. *)
Definition cmp_scaled (a p b q : Z) : comparison :=
  (a * 10 ^ Z.max p 0 * 2 ^ Z.max (- q) 0 ?= b * 2 ^ Z.max q 0 * 10 ^ Z.max (- p) 0)%Z.

(** The reals that round to the binary64 value [m * 2^e], in units of
    [2^iv_q]: from [iv_lo] to [iv_hi] around [iv_v], the bounds included
    when the significand is even (round to nearest, ties to even). *)
Record Interval : Type := mkInterval {
  iv_q : Z;
  iv_v : Z;
  iv_lo : Z;
  iv_hi : Z;
  iv_closed : bool
}.

Definition rounding_interval (m : positive) (e : Z) : Interval :=
  let E := fexp 53 1024 (Zpos (digits2_pos m) + e) in
  let q := (Z.min e E - 2)%Z in
  let V := (Zpos m * 2 ^ (e - q))%Z in
  let half := (2 ^ (E - 1 - q))%Z in
  let boundary := ((V =? 2 ^ (E + 52 - q)) && (-1074 <? E))%Z in
  {| iv_q := q;
     iv_v := V;
     iv_lo := (V - (if boundary then half / 2 else half))%Z;
     iv_hi := (V + half)%Z;
     iv_closed := Z.even (V / 2 ^ (E - q)) |}.

Definition in_interval (iv : Interval) (s p : Z) : bool :=
  match cmp_scaled s p (iv_lo iv) (iv_q iv), cmp_scaled s p (iv_hi iv) (iv_q iv) with
  | Gt, Lt => true
  | Eq, Lt | Gt, Eq => iv_closed iv
  | _, _ => false
  end.

(** The least [n] from [n] on with [v < 10^n]. *)
Fixpoint decimal_exponent (fuel : nat) (iv : Interval) (n : Z) : Z :=
  match fuel with
  | O => n
  | S fuel' =>
      match cmp_scaled 1 n (iv_v iv) (iv_q iv) with
      | Gt => n
      | _ => decimal_exponent fuel' iv (n + 1)%Z
      end
  end.

(** The [k]-digit integer [s] with [s * 10^(n-k)] in the interval and
    closest to [v], if there is one. *)
Definition candidate (iv : Interval) (n k : Z) : option Z :=
  let p := (n - k)%Z in
  let num := (iv_v iv * 2 ^ Z.max (iv_q iv) 0 * 10 ^ Z.max (- p) 0)%Z in
  let den := (2 ^ Z.max (- iv_q iv) 0 * 10 ^ Z.max p 0)%Z in
  let sf := (num / den)%Z in
  let sc := (sf + 1)%Z in
  match in_interval iv sf p, in_interval iv sc p with
  | true, true =>
      Some match (num - sf * den ?= sc * den - num)%Z with
           | Lt => sf
           | Gt => sc
           | Eq => if Z.even sf then sf else sc
           end
  | true, false => Some sf
  | false, true => Some sc
  | false, false => None
  end.

Fixpoint shortest_digits (fuel : nat) (iv : Interval) (n k : Z) : Z * Z :=
  match fuel with
  | O => (iv_v iv, n)
  | S fuel' =>
      match candidate iv n k with
      | Some s => if (s =? 10 ^ k)%Z then (10 ^ (k - 1), n + 1)%Z else (s, n)
      | None => shortest_digits fuel' iv n (k + 1)%Z
      end
  end.

(** Steps 6 to 10 of Number::toString: [digits] is the decimal
    representation of [s] and the value is [s * 10^(n - k)]. *)
Definition format_decimal (digits : string) (n : Z) : string :=
  let k := Z.of_nat (String.length digits) in
  if ((k <=? n) && (n <=? 21))%Z then
    digits +:+ zeros (Z.to_nat (n - k))
  else if ((0 <? n) && (n <=? 21))%Z then
    substring 0 (Z.to_nat n) digits +:+ "." +:+ substring (Z.to_nat n) (Z.to_nat (k - n)) digits
  else if ((-6 <? n) && (n <=? 0))%Z then
    "0." +:+ zeros (Z.to_nat (- n)) +:+ digits
  else
    let e := (n - 1)%Z in
    let exponent := (if (e <? 0)%Z then "-" else "+") +:+ decimal_of_N (Z.to_N (Z.abs e)) in
    if (k =? 1)%Z then digits +:+ "e" +:+ exponent
    else substring 0 1 digits +:+ "." +:+ substring 1 (Z.to_nat (k - 1)) digits +:+ "e" +:+ exponent.

Definition positive_number_to_string (m : positive) (e : Z) : string :=
  let iv := rounding_interval m e in
  let n := decimal_exponent 700 iv (-330) in
  let '(s, n') := shortest_digits 17 iv n 1 in
  format_decimal (decimal_of_N (Z.to_N s)) n'.

Definition NumberToString (x : JsNumber) : string :=
  match x with
  | S754_nan => "NaN"
  | S754_zero _ => "0"
  | S754_infinity false => "Infinity"
  | S754_infinity true => "-Infinity"
  | S754_finite false m e => positive_number_to_string m e
  | S754_finite true m e => String "-" (positive_number_to_string m e)
  end.

End Js.

(* ===================================================================== *)
(** * Imported functions *)
(* ===================================================================== *)

(** The modules the two source files import but that are not among the
    sources: [../infra/errors.js] ([formatErrorMessage],
    [extractErrorCode]) and [../globals.js] ([danger]); and the conversion
    of an object to a string, which runs the object's own [toString]. *)
Class Imports : Type := {
  objectToString : gmap nat Js.Obj -> nat -> string;
  formatErrorMessage : gmap nat Js.Obj -> Js.JsVal -> string;
  extractErrorCode : gmap nat Js.Obj -> Js.JsVal -> option string;
  danger : string -> string
}.

(** [String(v)] *)
Definition ToString `{Imports} (h : Js.Heap) (v : Js.JsVal) : string :=
  match v with
  | Js.VUndefined => "undefined"
  | Js.VNull => "null"
  | Js.VBool true => "true"
  | Js.VBool false => "false"
  | Js.VNum x => Js.NumberToString x
  | Js.VBigInt z => Js.decimal_of_Z z
  | Js.VStr s => s
  | Js.VSymbol _ d => "Symbol(" +:+ d +:+ ")"
  | Js.VObj a => objectToString h a
  end.

(* ===================================================================== *)
(** * Telegram network error classification (src/telegram/api-logging.ts) *)
(* ===================================================================== *)

Module NetworkErrors.
Import Js.

Definition RECOVERABLE_ERROR_CODES : list string :=
  [ "ECONNRESET"; "ECONNREFUSED"; "EPIPE"; "ETIMEDOUT"; "ESOCKETTIMEDOUT";
    "ENETUNREACH"; "EHOSTUNREACH"; "ENOTFOUND"; "EAI_AGAIN";
    "UND_ERR_CONNECT_TIMEOUT"; "UND_ERR_HEADERS_TIMEOUT";
    "UND_ERR_BODY_TIMEOUT"; "UND_ERR_SOCKET"; "UND_ERR_ABORTED";
    "ECONNABORTED"; "ERR_NETWORK" ].

Definition RECOVERABLE_ERROR_NAMES : list string :=
  [ "AbortError"; "TimeoutError"; "ConnectTimeoutError";
    "HeadersTimeoutError"; "BodyTimeoutError" ].

Definition RECOVERABLE_MESSAGE_SNIPPETS : list string :=
  [ "fetch failed"; "typeerror: fetch failed"; "undici"; "network error";
    "network request"; "client network socket disconnected";
    "socket hang up"; "getaddrinfo" ].

(** [Set<string>.prototype.has] *)
Definition string_set_has (set : list string) (s : string) : bool :=
  existsb (String.eqb s) set.

(** A string in a condition: the empty string is falsy. *)
Definition nonempty (s : string) : bool := negb (String.eqb s "").

Definition normalizeCode (code : option string) : string :=
  match code with
  | Some c => toUpperCase (trim c)
  | None => ""
  end.

(** [Set<unknown>.prototype.has], the set kept in insertion order. *)
Definition seen_has (seen : list JsVal) (v : JsVal) : bool :=
  existsb (fun s => sameValueZero s v) seen.

(** [if (v && !seen.has(v)) queue.push(v)] *)
Definition push_unseen (seen queue : list JsVal) (v : JsVal) : list JsVal :=
  if toBoolean v && negb (seen_has seen v) then queue ++ [v] else queue.

(** The body of [if (typeof current === "object") { ... }]: what the
    visit of [current] pushes on the queue. *)
Definition enqueue_links (h : Heap) (seen queue : list JsVal) (current : JsVal)
  : list JsVal :=
  if is_object_type (typeof h current) then
    let queue := push_unseen seen queue (get_prop h current "cause") in
    let queue := push_unseen seen queue (get_prop h current "reason") in
    match array_elems h (get_prop h current "errors") with
    | Some errors => fold_left (push_unseen seen) errors queue
    | None => queue
    end
  else queue.

(** The [while (queue.length > 0)] loop of [collectErrorCandidates]: one unit
    of fuel per iteration. *)
Fixpoint collect_loop (fuel : nat) (h : Heap) (queue seen candidates : list JsVal)
  : option (list JsVal) :=
  match queue with
  | [] => Some candidates
  | current :: queue =>
      match fuel with
      | O => None
      | S fuel =>
          if is_nullish current || seen_has seen current then
            collect_loop fuel h queue seen candidates
          else
            let seen := seen ++ [current] in
            let candidates := candidates ++ [current] in
            collect_loop fuel h (enqueue_links h seen queue current) seen candidates
      end
  end.

(** What visiting the object [o] can add to the queue: [cause], [reason] and
    the elements of [errors]. *)
Definition expansion_cost (h : Heap) (o : Obj) : nat :=
  2 + match array_elems h (default VUndefined (obj_props o !! "errors")) with
      | Some errors => length errors
      | None => 0
      end.

(** Enough iterations for any traversal of the heap [h]: the root, and what
    each object can add when it is visited, which happens once. *)
Definition traversal_bound (h : Heap) : nat :=
  S (sum_list (map (fun ao => expansion_cost h ao.2) (map_to_list h))).

Definition collectErrorCandidates (h : Heap) (err : JsVal) : option (list JsVal) :=
  collect_loop (traversal_bound h) h [err] [] [].

(** ** The error chain, as a relation *)

(** [w] is what [v.cause], [v.reason] or an element of the array [v.errors]
    refers to. *)
Inductive link (h : Heap) (v : JsVal) : JsVal -> Prop :=
| link_cause : link h v (get_prop h v "cause")
| link_reason : link h v (get_prop h v "reason")
| link_errors (errors : list JsVal) (nested : JsVal) :
    array_elems h (get_prop h v "errors") = Some errors ->
    In nested errors ->
    link h v nested.

(** The error chain of [err]: [err] itself, and the truthy values that the
    objects of the chain link to. *)
Inductive in_chain (h : Heap) (err : JsVal) : JsVal -> Prop :=
| chain_root : is_nullish err = false -> in_chain h err err
| chain_link (v w : JsVal) :
    in_chain h err v ->
    is_object_type (typeof h v) = true ->
    link h v w ->
    toBoolean w = true ->
    in_chain h err w.

(** Two values that [Set] keeps apart. *)
Definition differ (x y : JsVal) : Prop := sameValueZero x y = false.

(** ** Measures and invariants of the traversal *)

(** What the objects of [l] that are not in [seen] can still add to the
    queue. *)
Definition unseen_cost (h : Heap) (seen : list JsVal) (l : list (nat * Obj)) : nat :=
  sum_list (map (fun ao => if seen_has seen (VObj ao.1) then 0 else expansion_cost h ao.2) l).

(** The invariant of the traversal: the root and every link out of a visited
    object are visited or waiting in the queue. *)
Definition closed (h : Heap) (err : JsVal) (queue seen : list JsVal) : Prop :=
  (seen_has seen err = true \/ In err queue)
  /\ forall v w, In v seen -> is_object_type (typeof h v) = true ->
       link h v w -> toBoolean w = true ->
       seen_has seen w = true \/ In w queue.

Inductive TelegramNetworkErrorContext : Type :=
| polling | send | webhook | unknown.

Record Options : Type := mkOptions {
  context : option TelegramNetworkErrorContext;
  allowMessageMatch : option bool
}.

(** The default value of the [options] parameter, [{}]. *)
Definition no_options : Options :=
  {| context := None; allowMessageMatch := None |}.

Definition is_send (c : option TelegramNetworkErrorContext) : bool :=
  match c with Some send => true | _ => false end.

Section Classifier.
Context `{Imports}.

Definition getErrorName (h : Heap) (err : JsVal) : string :=
  if negb (toBoolean err) || negb (is_object_type (typeof h err)) then ""
  else if has_prop h err "name" then ToString h (get_prop h err "name")
  else "".

Definition getErrorCode (h : Heap) (err : JsVal) : option string :=
  let direct := extractErrorCode h err in
  if from_option nonempty false direct then direct
  else if negb (toBoolean err) || negb (is_object_type (typeof h err)) then None
  else
    match get_prop h err "errno" with
    | VStr errno => Some errno
    | VNum errno => Some (NumberToString errno)
    | _ => None
    end.

Definition code_signal (h : Heap) (candidate : JsVal) : bool :=
  let code := normalizeCode (getErrorCode h candidate) in
  nonempty code && string_set_has RECOVERABLE_ERROR_CODES code.

Definition name_signal (h : Heap) (candidate : JsVal) : bool :=
  let name := getErrorName h candidate in
  nonempty name && string_set_has RECOVERABLE_ERROR_NAMES name.

Definition message_signal (h : Heap) (candidate : JsVal) : bool :=
  let message := toLowerCase (formatErrorMessage h candidate) in
  nonempty message
  && existsb (fun snippet => includes message snippet) RECOVERABLE_MESSAGE_SNIPPETS.

(** The [for (const candidate of ...)] loop of
    [isRecoverableTelegramNetworkError]. *)
Fixpoint classify (h : Heap) (allow : bool) (candidates : list JsVal) : bool :=
  match candidates with
  | [] => false
  | candidate :: rest =>
      if code_signal h candidate then true
      else if name_signal h candidate then true
      else if allow && message_signal h candidate then true
      else classify h allow rest
  end.

(** [None] stands for a traversal that does not return. *)
Definition isRecoverableTelegramNetworkError
    (h : Heap) (err : JsVal) (options : Options) : option bool :=
  if negb (toBoolean err) then Some false
  else
    let allow :=
      match allowMessageMatch options with
      | Some b => b
      | None => negb (is_send (context options))
      end in
    match collectErrorCandidates h err with
    | Some candidates => Some (classify h allow candidates)
    | None => None
    end.

End Classifier.

End NetworkErrors.

(* ===================================================================== *)
(** * The retry engine (infra/retry.ts) *)
(* ===================================================================== *)

Module Retry.
Import Js.

(** The outcome of awaiting a call: a value, or the error it raised. *)
Inductive Outcome (T : Type) : Type :=
| Returned (v : T)
| Thrown (err : JsVal).
Arguments Returned {T} v.
Arguments Thrown {T} err.

(** Modelled from the spec: the resolved [RetryConfig] of section 3 (its
    declaration is in infra/retry.ts, which is not among the sources). *)
Record RetryConfig : Type := mkRetryConfig {
  attempts : JsNumber;
  minDelayMs : JsNumber;
  maxDelayMs : JsNumber;
  jitter : JsNumber
}.

(** A field of a partial [RetryConfig]: absent, or present with a number or
    with [undefined]. *)
Inductive Field : Type :=
| Absent
| Present (v : option JsNumber).

Record PartialRetryConfig : Type := mkPartial {
  p_attempts : Field;
  p_minDelayMs : Field;
  p_maxDelayMs : Field;
  p_jitter : Field
}.

Definition empty_partial : PartialRetryConfig :=
  {| p_attempts := Absent; p_minDelayMs := Absent; p_maxDelayMs := Absent; p_jitter := Absent |}.

Definition spread_field (a b : Field) : Field :=
  match b with
  | Absent => a
  | Present _ => b
  end.

(** [{ ...a, ...b }] where either may be [undefined]. *)
Definition spread (a b : option PartialRetryConfig) : PartialRetryConfig :=
  let a := default empty_partial a in
  let b := default empty_partial b in
  {| p_attempts := spread_field (p_attempts a) (p_attempts b);
     p_minDelayMs := spread_field (p_minDelayMs a) (p_minDelayMs b);
     p_maxDelayMs := spread_field (p_maxDelayMs a) (p_maxDelayMs b);
     p_jitter := spread_field (p_jitter a) (p_jitter b) |}.

Definition resolve_field (d : JsNumber) (f : Field) : JsNumber :=
  match f with
  | Present (Some x) => x
  | _ => d
  end.

(** Modelled from the spec: [resolveRetryConfig] of section 4.1, an absent or
    undefined field of the override leaves the default. *)
Definition resolveRetryConfig (defaults : RetryConfig) (override : PartialRetryConfig)
  : RetryConfig :=
  {| attempts := resolve_field (attempts defaults) (p_attempts override);
     minDelayMs := resolve_field (minDelayMs defaults) (p_minDelayMs override);
     maxDelayMs := resolve_field (maxDelayMs defaults) (p_maxDelayMs override);
     jitter := resolve_field (jitter defaults) (p_jitter override) |}.

(** Modelled from the spec: [RetryAttemptInfo] of section 3. *)
Record RetryAttemptInfo : Type := mkInfo {
  attempt : JsNumber;
  maxAttempts : JsNumber;
  delayMs : JsNumber;
  label : option string;
  err : JsVal
}.

(** What the engine and the loggers act on: the heap the errors live in, the
    console, the subsystem logger of "telegram/api", the clock, and the
    backoff calculator with its source of randomness. *)
Class Host (World : Type) : Type := {
  world_heap : World -> gmap nat Obj;
  console_warn : string -> World -> World;
  fallbackLogger_error : string -> World -> World;
  sleep : JsNumber -> World -> World;
  backoffDelay : RetryConfig -> nat -> World -> JsNumber * World
}.

Section Engine.
Context {World : Type} `{Host World}.

(** An asynchronous operation: it acts on the world and returns or raises. *)
Definition Operation (T : Type) : Type := World -> Outcome T * World.

Record RetryOptions : Type := mkRetryOptions {
  ro_config : RetryConfig;
  ro_label : option string;
  ro_shouldRetry : gmap nat Obj -> JsVal -> bool;
  ro_retryAfterMs : gmap nat Obj -> JsVal -> option JsNumber;
  ro_onRetry : option (RetryAttemptInfo -> World -> World)
}.

(** The number of invocations allowed: [attempts], at least one. *)
Definition attempt_budget (c : RetryConfig) : nat :=
  Z.to_nat (Z.max 1 (number_trunc (attempts c))).

(** Modelled from the spec: the state machine of section 4.4.  [remaining]
    is the number of invocations left after this one, [n] the 1-based
    attempt counter. *)
Fixpoint retry_from {T : Type} (remaining n : nat) (fn : Operation T)
    (o : RetryOptions) (w : World) : Outcome T * World :=
  match fn w with
  | (Returned v, w1) => (Returned v, w1)
  | (Thrown e, w1) =>
      match remaining with
      | O => (Thrown e, w1)
      | S remaining' =>
          if negb (ro_shouldRetry o (world_heap w1) e) then (Thrown e, w1)
          else
            let '(d, w2) :=
              match ro_retryAfterMs o (world_heap w1) e with
              | Some ms => (Math_max ms (minDelayMs (ro_config o)), w1)
              | None => backoffDelay (ro_config o) (n - 1) w1
              end in
            let info :=
              {| attempt := number_of_Z (Z.of_nat n);
                 maxAttempts := attempts (ro_config o);
                 delayMs := d;
                 label := ro_label o;
                 err := e |} in
            let w3 := match ro_onRetry o with
                      | Some hook => hook info w2
                      | None => w2
                      end in
            retry_from remaining' (S n) fn o (sleep d w3)
      end
  end.

Definition retryAsync {T : Type} (fn : Operation T) (o : RetryOptions)
  : Operation T :=
  retry_from (attempt_budget (ro_config o) - 1) 1 fn o.

End Engine.

Arguments RetryOptions World : clear implicits.
Arguments Operation World T : clear implicits.

End Retry.

(* ===================================================================== *)
(** * Channel retry runners (src/infra/retry-policy.ts) *)
(* ===================================================================== *)

Module RetryPolicy.
Import Js Retry.

Definition number_tenth : JsNumber :=
  Eval vm_compute in SFdiv 53 1024 (number_of_Z 1) (number_of_Z 10).

Definition DISCORD_RETRY_DEFAULTS : RetryConfig :=
  {| attempts := number_of_Z 3;
     minDelayMs := number_of_Z 500;
     maxDelayMs := number_of_Z 30000;
     jitter := number_tenth |}.

Definition TELEGRAM_RETRY_DEFAULTS : RetryConfig :=
  {| attempts := number_of_Z 3;
     minDelayMs := number_of_Z 400;
     maxDelayMs := number_of_Z 30000;
     jitter := number_tenth |}.

(** [v && typeof v === "object"] *)
Definition is_object (h : Heap) (v : JsVal) : bool :=
  toBoolean v && is_object_type (typeof h v).

(** [typeof c === "number" && Number.isFinite(c) ? c * 1000 : undefined] *)
Definition seconds_to_ms (candidate : JsVal) : option JsNumber :=
  match candidate with
  | VNum c => if number_isFinite c then Some (number_mul c number_1000) else None
  | _ => None
  end.

(** [p?.retry_after] *)
Definition optional_retry_after (h : Heap) (p : JsVal) : JsVal :=
  if is_nullish p then VUndefined else get_prop h p "retry_after".

Definition getTelegramRetryAfterMs (h : Heap) (err : JsVal) : option JsNumber :=
  if negb (toBoolean err) || negb (is_object_type (typeof h err)) then None
  else
    let candidate :=
      if has_prop h err "parameters" && is_object h (get_prop h err "parameters") then
        get_prop h (get_prop h err "parameters") "retry_after"
      else if has_prop h err "response" && is_object h (get_prop h err "response")
              && has_prop h (get_prop h err "response") "parameters" then
        optional_retry_after h (get_prop h (get_prop h err "response") "parameters")
      else if has_prop h err "error" && is_object h (get_prop h err "error")
              && has_prop h (get_prop h err "error") "parameters" then
        optional_retry_after h (get_prop h (get_prop h err "error") "parameters")
      else VUndefined in
    seconds_to_ms candidate.

(** The reading of [getTelegramRetryAfterMs] by which the candidate comes
    from the first of [parameters], [response.parameters] and
    [error.parameters] that is present as an object. *)
Definition first_object_parameters (h : Heap) (err : JsVal) : option JsVal :=
  let direct := get_prop h err "parameters" in
  let in_response := get_prop h (get_prop h err "response") "parameters" in
  let in_error := get_prop h (get_prop h err "error") "parameters" in
  if is_object h direct then Some direct
  else if is_object h in_response then Some in_response
  else if is_object h in_error then Some in_error
  else None.

Definition retryAfterMs_of_first_object (h : Heap) (err : JsVal) : option JsNumber :=
  if is_object h err then
    match first_object_parameters h err with
    | Some p => seconds_to_ms (get_prop h p "retry_after")
    | None => None
    end
  else None.

Definition number_one : JsNumber := Eval vm_compute in number_of_Z 1.

(** [Math.max(1, info.maxAttempts - 1)] *)
Definition maxRetries (info : RetryAttemptInfo) : JsNumber :=
  Math_max number_one (number_sub (maxAttempts info) number_one).

(** [params.verbose ? hook : undefined] *)
Definition when_verbose {A : Type} (verbose : option bool) (hook : A) : option A :=
  match verbose with
  | Some true => Some hook
  | _ => None
  end.

Section Runners.
Context `{Imports} {World : Type} `{Host World}.

Record DiscordParams : Type := mkDiscordParams {
  d_retry : option PartialRetryConfig;
  d_configRetry : option PartialRetryConfig;
  d_verbose : option bool
}.

(** The template literal of the Discord [onRetry] hook. *)
Definition discord_retry_line (info : RetryAttemptInfo) : string :=
  let labelText := default "request" (label info) in
  "discord " +:+ labelText +:+ " rate limited, retry "
    +:+ NumberToString (attempt info) +:+ "/" +:+ NumberToString (maxRetries info)
    +:+ " in " +:+ NumberToString (delayMs info) +:+ "ms".

Definition discord_shouldRetry (h : Heap) (e : JsVal) : bool :=
  match as_RateLimitError h e with
  | Some _ => true
  | None => false
  end.

Definition discord_retryAfterMs (h : Heap) (e : JsVal) : option JsNumber :=
  match as_RateLimitError h e with
  | Some retryAfter => Some (number_mul retryAfter number_1000)
  | None => None
  end.

Definition discord_onRetry (verbose : option bool)
  : option (RetryAttemptInfo -> World -> World) :=
  when_verbose verbose (fun info => console_warn (discord_retry_line info)).

(** The options [createDiscordRetryRunner] hands to [retryAsync]. *)
Definition discord_options (params : DiscordParams) (label : option string)
  : RetryOptions World :=
  {| ro_config := resolveRetryConfig DISCORD_RETRY_DEFAULTS
                    (spread (d_configRetry params) (d_retry params));
     ro_label := label;
     ro_shouldRetry := discord_shouldRetry;
     ro_retryAfterMs := discord_retryAfterMs;
     ro_onRetry := discord_onRetry (d_verbose params) |}.

Definition createDiscordRetryRunner (params : DiscordParams)
    {T : Type} (fn : Operation World T) (label : option string) : Operation World T :=
  retryAsync fn (discord_options params label).

Record TelegramParams : Type := mkTelegramParams {
  t_retry : option PartialRetryConfig;
  t_configRetry : option PartialRetryConfig;
  t_verbose : option bool;
  t_shouldRetry : option (gmap nat Obj -> JsVal -> bool)
}.

(** [TELEGRAM_RETRY_RE.test(s)]: one of the alternatives occurs in [s],
    whatever the case. *)
Definition TELEGRAM_RETRY_RE_test (s : string) : bool :=
  existsb (fun alternative => includes (toLowerCase s) alternative)
    [ "429"; "timeout"; "connect"; "reset"; "closed"; "unavailable"; "temporarily" ].

Definition telegram_shouldRetry (params : TelegramParams) (h : Heap) (e : JsVal) : bool :=
  match t_shouldRetry params with
  | Some custom => custom h e || TELEGRAM_RETRY_RE_test (formatErrorMessage h e)
  | None => TELEGRAM_RETRY_RE_test (formatErrorMessage h e)
  end.

(** The template literal of the Telegram [onRetry] hook; [label] is the
    runner's argument. *)
Definition telegram_retry_line (h : Heap) (label : option string)
    (info : RetryAttemptInfo) : string :=
  let labelText :=
    match Retry.label info with
    | Some l => l
    | None => default "request" label
    end in
  "telegram send retry " +:+ NumberToString (attempt info) +:+ "/"
    +:+ NumberToString (maxRetries info) +:+ " for " +:+ labelText
    +:+ " in " +:+ NumberToString (delayMs info) +:+ "ms: "
    +:+ formatErrorMessage h (err info).

Definition telegram_onRetry (verbose : option bool) (label : option string)
  : option (RetryAttemptInfo -> World -> World) :=
  when_verbose verbose
    (fun info w => console_warn (telegram_retry_line (world_heap w) label info) w).

Definition telegram_options (params : TelegramParams) (label : option string)
  : RetryOptions World :=
  {| ro_config := resolveRetryConfig TELEGRAM_RETRY_DEFAULTS
                    (spread (t_configRetry params) (t_retry params));
     ro_label := label;
     ro_shouldRetry := telegram_shouldRetry params;
     ro_retryAfterMs := getTelegramRetryAfterMs;
     ro_onRetry := telegram_onRetry (t_verbose params) label |}.

Definition createTelegramRetryRunner (params : TelegramParams)
    {T : Type} (fn : Operation World T) (label : option string) : Operation World T :=
  retryAsync fn (telegram_options params label).

End Runners.

(** The line the interface description gives for the observation hook:
    ["<channel> <label-or-'request'> retry <n>/<max> in <ms>ms[: <error message>]"],
    with [<max>] the [maxAttempts] of the info. *)
Definition described_retry_line (channel : string) (info : RetryAttemptInfo)
    (message : option string) : string :=
  channel +:+ " " +:+ default "request" (label info) +:+ " retry "
    +:+ NumberToString (attempt info) +:+ "/" +:+ NumberToString (maxAttempts info)
    +:+ " in " +:+ NumberToString (delayMs info) +:+ "ms"
    +:+ match message with
        | Some m => ": " +:+ m
        | None => ""
        end.

End RetryPolicy.

(* ===================================================================== *)
(** * Telegram API error logging (src/telegram/api-logging.ts) *)
(* ===================================================================== *)

Module ApiLogging.
Import Js Retry.

Section Logging.
Context `{Imports} {World : Type} `{Host World}.

Definition TelegramApiLogger : Type := string -> World -> World.

(** [RuntimeEnv] (from ../runtime.js), of which the code reads [error]. *)
Record RuntimeEnv : Type := mkRuntimeEnv {
  runtime_error : option TelegramApiLogger
}.

Record TelegramApiLoggingParams (T : Type) : Type := mkLoggingParams {
  operation : string;
  fn : Operation World T;
  runtime : option RuntimeEnv;
  logger : option TelegramApiLogger;
  shouldLog : option (gmap nat Obj -> JsVal -> bool)
}.
Arguments operation {T} _.
Arguments fn {T} _.
Arguments runtime {T} _.
Arguments logger {T} _.
Arguments shouldLog {T} _.

Definition resolveTelegramApiLogger (runtime : option RuntimeEnv)
    (logger : option TelegramApiLogger) : TelegramApiLogger :=
  match logger with
  | Some l => l
  | None =>
      match runtime with
      | Some {| runtime_error := Some e |} => e
      | _ => fun message => fallbackLogger_error message
      end
  end.

(** [!shouldLog || shouldLog(err)] *)
Definition wants_log (shouldLog : option (gmap nat Obj -> JsVal -> bool))
    (h : Heap) (e : JsVal) : bool :=
  match shouldLog with
  | None => true
  | Some p => p h e
  end.

Definition failure_line (operation errText : string) : string :=
  danger ("telegram " +:+ operation +:+ " failed: " +:+ errText).

Definition withTelegramApiErrorLogging {T : Type} (p : TelegramApiLoggingParams T)
  : Operation World T :=
  fun w =>
    match fn p w with
    | (Returned v, w1) => (Returned v, w1)
    | (Thrown e, w1) =>
        let w2 :=
          if wants_log (shouldLog p) (world_heap w1) e then
            let errText := formatErrorMessage (world_heap w1) e in
            let log := resolveTelegramApiLogger (runtime p) (logger p) in
            log (failure_line (operation p) errText) w1
          else w1 in
        (Thrown e, w2)
    end.

End Logging.

Arguments TelegramApiLoggingParams World T : clear implicits.
Arguments RuntimeEnv World : clear implicits.
Arguments mkLoggingParams {World T}.
Arguments operation {World T} _.
Arguments fn {World T} _.
Arguments runtime {World T} _.
Arguments logger {World T} _.
Arguments shouldLog {World T} _.
Arguments mkRuntimeEnv {World}.
Arguments runtime_error {World} _.

End ApiLogging.

(* ===================================================================== *)
(** * The backoff calculator *)
(* ===================================================================== *)

Module Backoff.

(** Modelled from the spec: the Backoff Calculator of section 4.2 (it is part
    of infra/retry.ts, which is not among the sources).  The delays and the
    attempt index are the non-negative integers of the data model, the
    jitter fraction and the uniform sample [U] of [[0,1)] are rationals:
    [raw = min(baseDelayMs * 2^attemptIndex, maxDelayMs)], then
    [raw * (1 + (U - 0.5) * 2 * jitterFraction)] floored to a non-negative
    integer. *)
Definition computeDelay (baseDelayMs attemptIndex maxDelayMs : N)
    (jitterFraction U : Q) : N :=
  let raw := N.min (baseDelayMs * 2 ^ attemptIndex) maxDelayMs in
  Z.to_N (Qfloor (inject_Z (Z.of_N raw) * (1 + (U - (1 # 2)) * 2 * jitterFraction))).

End Backoff.

(* ===================================================================== *)
(** * Sample worlds and error graphs *)
(* ===================================================================== *)

Module Samples.
Import Js Retry.

(** Modelled from the spec: a stand-in for infra/errors.ts and globals.ts,
    used to evaluate the code on sample errors.  The message of an object is
    its string [message], that of a string is the string; the code of an
    object is its string [code]; [danger] leaves the text as it is. *)
#[export] Instance sample_imports : Imports := {|
  objectToString := fun _ _ => "[object Object]";
  formatErrorMessage := fun h v =>
    match v with
    | VStr s => s
    | _ => match get_prop h v "message" with
           | VStr s => s
           | _ => ""
           end
    end;
  extractErrorCode := fun h v =>
    match get_prop h v "code" with
    | VStr s => Some s
    | _ => None
    end;
  danger := fun s => s
|}.

(** A world that records what happens to it. *)
Inductive Event : Type :=
| Warned (line : string)
| FallbackLogged (line : string)
| RuntimeLogged (line : string)
| CustomLogged (line : string)
| Slept (ms : JsNumber)
| Called.

Record SampleWorld : Type := mkWorld {
  sw_heap : gmap nat Obj;
  sw_events : list Event
}.

Definition record (e : Event) (w : SampleWorld) : SampleWorld :=
  {| sw_heap := sw_heap w; sw_events := sw_events w ++ [e] |}.

#[export] Instance sample_host : Host SampleWorld := {|
  world_heap := sw_heap;
  console_warn := fun line => record (Warned line);
  fallbackLogger_error := fun line => record (FallbackLogged line);
  sleep := fun ms => record (Slept ms);
  backoffDelay := fun c n w => (minDelayMs c, w)
|}.

Definition obj (props : list (string * JsVal)) : Obj :=
  {| obj_kind := KOrdinary; obj_props := list_to_map props |}.

(** An error whose [cause] carries the code, the cause pointing back at the
    error:
    [outer = { message: "request failed", cause: inner }],
    [inner = { code: "econnreset ", cause: outer }]. *)
Definition cyclic_heap : gmap nat Obj :=
  list_to_map
    [ (1, obj [("message", VStr "request failed"); ("cause", VObj 2)]);
      (2, obj [("code", VStr "econnreset "); ("cause", VObj 1)]) ].

(** [{ message: "Network error occurred" }] *)
Definition message_heap : gmap nat Obj :=
  list_to_map [ (1, obj [("message", VStr "Network error occurred")]) ].

(** [{ errno: -104 }] *)
Definition errno_heap : gmap nat Obj :=
  list_to_map [ (1, obj [("errno", VNum (number_of_Z (-104)))]) ].

(** [{ response: { parameters: null }, error: { parameters: { retry_after: 5 } } }] *)
Definition nested_heap : gmap nat Obj :=
  list_to_map
    [ (1, obj [("response", VObj 2); ("error", VObj 3)]);
      (2, obj [("parameters", VNull)]);
      (3, obj [("parameters", VObj 4)]);
      (4, obj [("retry_after", VNum (number_of_Z 5))]) ].

(** [{ response: { parameters: "none" }, error: { parameters: { retry_after: 5 } } }] *)
Definition nested_string_heap : gmap nat Obj :=
  list_to_map
    [ (1, obj [("response", VObj 2); ("error", VObj 3)]);
      (2, obj [("parameters", VStr "none")]);
      (3, obj [("parameters", VObj 4)]);
      (4, obj [("retry_after", VNum (number_of_Z 5))]) ].

(** [{ parameters: { retry_after: 5 } }] *)
Definition direct_heap : gmap nat Obj :=
  list_to_map
    [ (1, obj [("parameters", VObj 2)]);
      (2, obj [("retry_after", VNum (number_of_Z 5))]) ].

(** A [RateLimitError] with [retryAfter = 2], and a plain error. *)
Definition discord_heap : gmap nat Obj :=
  list_to_map
    [ (1, {| obj_kind := KRateLimitError (number_of_Z 2);
             obj_props := list_to_map [("message", VStr "rate limited")] |});
      (2, obj [("message", VStr "boom")]) ].

(** The first retry of three attempts, after 400 ms, of "sendMessage". *)
Definition sample_info : RetryAttemptInfo :=
  {| attempt := number_of_Z 1;
     maxAttempts := number_of_Z 3;
     delayMs := number_of_Z 400;
     label := Some "sendMessage";
     err := VObj 2 |}.

(** An operation that raises the error at address [a]. *)
Definition failing (a : nat) : Operation SampleWorld unit :=
  fun w => (Thrown (VObj a), record Called w).

Definition succeeding : Operation SampleWorld nat :=
  fun w => (Returned 7, record Called w).

Definition world_of (h : gmap nat Obj) : SampleWorld :=
  {| sw_heap := h; sw_events := [] |}.

End Samples.

(* ===================================================================== *)
(** * Facts about values and strings *)
(* ===================================================================== *)

Module JsFacts.
Import Js.

Lemma number_sameValueZero_refl (x : spec_float) : number_sameValueZero x x = true.
Proof.
  destruct x as [s|s| |s m e]; try destruct s; simpl; try reflexivity;
    unfold SFeqb; simpl; rewrite Z.compare_refl;
    change (Pos.compare_cont Eq m m) with (Pos.compare m m);
    rewrite Pos.compare_refl; reflexivity.
Qed.

Lemma sameValueZero_refl (v : JsVal) : sameValueZero v v = true.
Proof.
  destruct v; simpl; auto.
  - apply eqb_reflx.
  - apply number_sameValueZero_refl.
  - apply Z.eqb_refl.
  - apply String.eqb_refl.
  - rewrite Nat.eqb_refl, String.eqb_refl. reflexivity.
  - apply Nat.eqb_refl.
Qed.

Lemma sameValueZero_object (v : JsVal) (a : nat) :
  sameValueZero v (VObj a) = true -> v = VObj a.
Proof.
  destruct v; simpl; try discriminate.
  intros E. apply Nat.eqb_eq in E. congruence.
Qed.

Lemma number_sameValueZero_truthy (x y : spec_float) :
  number_sameValueZero x y = true -> toBoolean (VNum y) = true -> x = y.
Proof.
  destruct y as [t|t| |t n f]; simpl; try discriminate; intros E _.
  - destruct x as [s|s| |s m e]; try destruct s; destruct t; simpl in E;
      try discriminate; reflexivity.
  - destruct x as [s|s| |s m e]; try discriminate;
      try (destruct s, t; discriminate).
    unfold number_sameValueZero, SFeqb, SFcompare in E.
    destruct s, t; try discriminate;
      destruct (Z.compare_spec e f) as [He|He|He]; try discriminate;
      change (Pos.compare_cont Eq m n) with (Pos.compare m n) in E;
      destruct (Pos.compare_spec m n) as [Hm|Hm|Hm]; try discriminate;
      subst; reflexivity.
Qed.

Lemma sameValueZero_truthy (x y : JsVal) :
  sameValueZero x y = true -> toBoolean y = true -> x = y.
Proof.
  destruct x, y; simpl; try discriminate; intros E T; try reflexivity.
  - apply eqb_prop in E. congruence.
  - f_equal. apply number_sameValueZero_truthy; assumption.
  - apply Z.eqb_eq in E. congruence.
  - apply String.eqb_eq in E. congruence.
  - apply andb_true_iff in E as [E1 E2].
    apply Nat.eqb_eq in E1. apply String.eqb_eq in E2. congruence.
  - apply Nat.eqb_eq in E. congruence.
Qed.

Lemma truthy_not_nullish (v : JsVal) : toBoolean v = true -> is_nullish v = false.
Proof. destruct v; simpl; congruence. Qed.

End JsFacts.

Module StringFacts.
Import Js.

Lemma string_forallb_app (p : ascii -> bool) (s t : string) :
  string_forallb p (s +:+ t) = string_forallb p s && string_forallb p t.
Proof.
  induction s as [|c s IH]; simpl; [reflexivity|].
  rewrite IH. apply andb_assoc.
Qed.

Lemma string_forallb_substring (p : ascii -> bool) (s : string) :
  string_forallb p s = true ->
  forall n m, string_forallb p (substring n m s) = true.
Proof.
  induction s as [|c s IH]; intros Hs n m.
  - destruct n, m; reflexivity.
  - simpl in Hs. apply andb_true_iff in Hs as [Hc Hs].
    destruct n as [|n]; simpl.
    + destruct m as [|m]; simpl; [reflexivity|]. rewrite Hc. apply (IH Hs 0).
    + apply IH. assumption.
Qed.

Lemma string_forallb_weaken (p q : ascii -> bool) (s : string) :
  (forall c, p c = true -> q c = true) ->
  string_forallb p s = true -> string_forallb q s = true.
Proof.
  intros Hpq. induction s as [|c s IH]; simpl; [reflexivity|].
  intros Hs. apply andb_true_iff in Hs as [Hc Hs].
  rewrite (Hpq c Hc). auto.
Qed.

Lemma string_forallb_map (p q : ascii -> bool) (f : ascii -> ascii) (s : string) :
  (forall c, p c = true -> q (f c) = true) ->
  string_forallb p s = true -> string_forallb q (string_map f s) = true.
Proof.
  intros Hpq. induction s as [|c s IH]; simpl; [reflexivity|].
  intros Hs. apply andb_true_iff in Hs as [Hc Hs].
  rewrite (Hpq c Hc). auto.
Qed.

Lemma string_forallb_trimStart (p : ascii -> bool) (s : string) :
  string_forallb p s = true -> string_forallb p (trimStart s) = true.
Proof.
  induction s as [|c s IH]; simpl; [reflexivity|].
  intros Hs. destruct (is_whitespace c); [|exact Hs].
  apply andb_true_iff in Hs as [_ Hs]. auto.
Qed.

Lemma string_forallb_trimEnd (p : ascii -> bool) (s : string) :
  string_forallb p s = true -> string_forallb p (trimEnd s) = true.
Proof.
  induction s as [|c s IH]; simpl; [reflexivity|].
  intros Hs. apply andb_true_iff in Hs as [Hc Hs].
  destruct (is_whitespace c && (trimEnd s =? "")%string); [reflexivity|].
  simpl. rewrite Hc. auto.
Qed.

Lemma string_forallb_trim (p : ascii -> bool) (s : string) :
  string_forallb p s = true -> string_forallb p (trim s) = true.
Proof.
  intros. unfold trim. apply string_forallb_trimEnd, string_forallb_trimStart.
  assumption.
Qed.

Lemma upper_char_number (c : ascii) :
  number_char c = true -> upper_number_char (upper_char c) = true.
Proof.
  destruct c as [[] [] [] [] [] [] [] []]; vm_compute; congruence.
Qed.

Lemma is_digit_number_char (c : ascii) : is_digit c = true -> number_char c = true.
Proof.
  destruct c as [[] [] [] [] [] [] [] []]; vm_compute; congruence.
Qed.

Lemma digit_char_is_digit (n : N) : is_digit (digit_char (n mod 10)) = true.
Proof.
  assert (Hd : (n mod 10 < 10)%N) by (apply N.mod_lt; discriminate).
  generalize dependent (n mod 10)%N. intros d Hd.
  assert (E : (d = 0 \/ d = 1 \/ d = 2 \/ d = 3 \/ d = 4 \/ d = 5 \/ d = 6 \/
               d = 7 \/ d = 8 \/ d = 9)%N) by lia.
  repeat destruct E as [E|E]; rewrite E; reflexivity.
Qed.

Lemma decimal_go_digits (fuel : nat) :
  forall n acc, string_forallb is_digit acc = true ->
    string_forallb is_digit (decimal_go fuel n acc) = true.
Proof.
  induction fuel as [|fuel IH]; intros n acc Hacc; simpl; [assumption|].
  assert (Hnew : string_forallb is_digit (String (digit_char (n mod 10)) acc) = true).
  { simpl. rewrite digit_char_is_digit. assumption. }
  destruct (n <? 10)%N; [assumption|]. apply IH. assumption.
Qed.

Lemma decimal_of_N_digits (n : N) : string_forallb is_digit (decimal_of_N n) = true.
Proof. unfold decimal_of_N. apply decimal_go_digits. reflexivity. Qed.

Lemma zeros_digits (n : nat) : string_forallb is_digit (zeros n) = true.
Proof. induction n; simpl; auto. Qed.

Ltac number_chars :=
  repeat (rewrite string_forallb_app; apply andb_true_iff; split);
  try reflexivity;
  try (apply string_forallb_substring);
  try (eapply string_forallb_weaken; [exact is_digit_number_char|]);
  auto using decimal_of_N_digits, zeros_digits.

Lemma format_decimal_chars (digits : string) (n : Z) :
  string_forallb is_digit digits = true ->
  string_forallb number_char (format_decimal digits n) = true.
Proof.
  intros Hd.
  assert (Hn : string_forallb number_char digits = true)
    by (eapply string_forallb_weaken; [exact is_digit_number_char | exact Hd]).
  unfold format_decimal.
  repeat match goal with
  | |- context [if ?b then _ else _] => destruct b
  end; number_chars.
Qed.

Lemma positive_number_to_string_chars (m : positive) (e : Z) :
  string_forallb number_char (positive_number_to_string m e) = true.
Proof.
  unfold positive_number_to_string.
  destruct (shortest_digits _ _ _ _) as [s n].
  apply format_decimal_chars, decimal_of_N_digits.
Qed.

Lemma NumberToString_chars (x : spec_float) :
  string_forallb number_char (NumberToString x) = true.
Proof.
  destruct x as [s|s| |s m e]; try destruct s; try reflexivity; simpl;
    rewrite ?positive_number_to_string_chars; reflexivity.
Qed.

End StringFacts.

(* ===================================================================== *)
(** * The traversal of the error chain *)
(* ===================================================================== *)

Module TraversalFacts.
Import Js NetworkErrors JsFacts.

(** ** The visited set *)

Lemma seen_has_app (seen : list JsVal) (c v : JsVal) :
  seen_has (seen ++ [c]) v = seen_has seen v || sameValueZero c v.
Proof.
  unfold seen_has. rewrite existsb_app. simpl. rewrite orb_false_r. reflexivity.
Qed.

Lemma seen_has_true (seen : list JsVal) (v : JsVal) :
  seen_has seen v = true <-> exists s, In s seen /\ sameValueZero s v = true.
Proof. unfold seen_has. apply existsb_exists. Qed.

Lemma seen_has_false (seen : list JsVal) (v : JsVal) :
  seen_has seen v = false <-> Forall (fun s => sameValueZero s v = false) seen.
Proof.
  unfold seen_has. induction seen as [|s seen IH]; simpl.
  - split; auto.
  - rewrite orb_false_iff, IH. split.
    + intros [? ?]. constructor; assumption.
    + intros F. inversion F; subst. split; assumption.
Qed.

(** ** What a visit adds to the queue *)

Lemma push_unseen_length (seen queue : list JsVal) (v : JsVal) :
  length (push_unseen seen queue v) <= S (length queue).
Proof.
  unfold push_unseen. destruct (toBoolean v && negb (seen_has seen v)).
  - rewrite length_app. simpl. lia.
  - lia.
Qed.

Lemma push_unseen_incl (seen queue : list JsVal) (v w : JsVal) :
  In w queue -> In w (push_unseen seen queue v).
Proof.
  unfold push_unseen. destruct (toBoolean v && negb (seen_has seen v)); auto.
  intros. apply in_or_app. auto.
Qed.

Lemma push_unseen_complete (seen queue : list JsVal) (v : JsVal) :
  toBoolean v = true -> seen_has seen v = true \/ In v (push_unseen seen queue v).
Proof.
  intros T. unfold push_unseen. rewrite T. destruct (seen_has seen v); simpl; auto.
  right. apply in_or_app. simpl. auto.
Qed.

Lemma fold_push_unseen_length (seen errors queue : list JsVal) :
  length (fold_left (push_unseen seen) errors queue) <= length queue + length errors.
Proof.
  revert queue. induction errors as [|e errors IH]; intros queue; simpl.
  - lia.
  - specialize (IH (push_unseen seen queue e)).
    pose proof (push_unseen_length seen queue e). lia.
Qed.

Lemma fold_push_unseen_incl (seen errors queue : list JsVal) (w : JsVal) :
  In w queue -> In w (fold_left (push_unseen seen) errors queue).
Proof.
  revert queue. induction errors as [|e errors IH]; intros queue; simpl; auto.
  intros. apply IH. apply push_unseen_incl. assumption.
Qed.

Lemma fold_push_unseen_complete (seen errors queue : list JsVal) (w : JsVal) :
  In w errors -> toBoolean w = true ->
  seen_has seen w = true \/ In w (fold_left (push_unseen seen) errors queue).
Proof.
  revert queue. induction errors as [|e errors IH]; intros queue; simpl.
  - contradiction.
  - intros [->|Hin] T.
    + destruct (push_unseen_complete seen queue w T) as [?|?]; auto.
      right. apply fold_push_unseen_incl. assumption.
    + apply IH; assumption.
Qed.

Lemma enqueue_links_incl (h : Heap) (seen queue : list JsVal) (c w : JsVal) :
  In w queue -> In w (enqueue_links h seen queue c).
Proof.
  intros Hin. unfold enqueue_links.
  destruct (is_object_type (typeof h c)); auto.
  destruct (array_elems h (get_prop h c "errors"));
    [apply fold_push_unseen_incl|]; do 2 apply push_unseen_incl; assumption.
Qed.

(** ** Termination *)

#[local] Arguments expansion_cost : simpl never.

Lemma unseen_cost_mono (h : Heap) (seen : list JsVal) (c : JsVal) (l : list (nat * Obj)) :
  unseen_cost h (seen ++ [c]) l <= unseen_cost h seen l.
Proof.
  unfold unseen_cost. generalize (expansion_cost h). intros f.
  induction l as [|[a o] l IH]; simpl; auto.
  rewrite seen_has_app. destruct (seen_has seen (VObj a)); simpl; [assumption|].
  destruct (sameValueZero c (VObj a)); lia.
Qed.

Lemma unseen_cost_visit (h : Heap) (seen : list JsVal) (a : nat) (o : Obj)
    (l : list (nat * Obj)) :
  In (a, o) l -> seen_has seen (VObj a) = false ->
  unseen_cost h (seen ++ [VObj a]) l + expansion_cost h o <= unseen_cost h seen l.
Proof.
  intros Hin Hnew. pose proof (unseen_cost_mono h seen (VObj a)) as M.
  unfold unseen_cost in *. revert M. generalize (expansion_cost h). intros f M.
  induction l as [|[b p] l IH]; simpl in *; [contradiction|].
  destruct Hin as [E|Hin].
  - inversion E; subst b p. specialize (M l).
    rewrite seen_has_app, Hnew. simpl. rewrite Nat.eqb_refl. lia.
  - specialize (IH Hin).
    rewrite seen_has_app. destruct (seen_has seen (VObj b)); simpl; [lia|].
    destruct (Nat.eqb a b); lia.
Qed.

Lemma enqueue_links_length (h : Heap) (seen' seen queue : list JsVal) (c : JsVal) :
  is_nullish c = false -> seen_has seen c = false ->
  length (enqueue_links h seen' queue c) + unseen_cost h (seen ++ [c]) (map_to_list h)
  <= length queue + unseen_cost h seen (map_to_list h).
Proof.
  intros Hnn Hnew. pose proof (unseen_cost_mono h seen c (map_to_list h)) as M.
  unfold enqueue_links.
  destruct (is_object_type (typeof h c)) eqn:Hty; [|lia].
  destruct c as [| | | | | | |a]; simpl in Hty, Hnn; try discriminate.
  destruct (h !! a) as [o|] eqn:Ha.
  - pose proof (unseen_cost_visit h seen a o (map_to_list h)) as V.
    specialize (V (proj1 (list_elem_of_In _ _) (proj2 (elem_of_map_to_list h a o) Ha)) Hnew).
    assert (L : forall q, length (match array_elems h (get_prop h (VObj a) "errors") with
                        | Some errors => fold_left (push_unseen seen') errors q
                        | None => q end) + 2 <= length q + expansion_cost h o).
    { intros q. unfold expansion_cost. simpl get_prop. rewrite Ha.
      destruct (array_elems h (default VUndefined (obj_props o !! "errors"))).
      - pose proof (fold_push_unseen_length seen' l q). lia.
      - lia. }
    match goal with |- context [match _ with Some _ => _ | None => ?q end] =>
      specialize (L q); pose proof (push_unseen_length seen'
        (push_unseen seen' queue (get_prop h (VObj a) "cause")) (get_prop h (VObj a) "reason"));
      pose proof (push_unseen_length seen' queue (get_prop h (VObj a) "cause")) end.
    lia.
  - simpl. rewrite Ha. simpl. unfold push_unseen. simpl. lia.
Qed.

Lemma collect_loop_returns (h : Heap) (fuel : nat) :
  forall queue seen candidates,
    length queue + unseen_cost h seen (map_to_list h) <= fuel ->
    is_Some (collect_loop fuel h queue seen candidates).
Proof.
  induction fuel as [|fuel IH]; intros queue seen candidates Hfuel.
  - destruct queue; simpl in *; [eauto | lia].
  - destruct queue as [|c queue]; simpl; [eauto|].
    destruct (is_nullish c || seen_has seen c) eqn:Hskip.
    + apply IH. simpl in Hfuel. lia.
    + apply orb_false_iff in Hskip as [Hnn Hnew]. apply IH.
      pose proof (enqueue_links_length h (seen ++ [c]) seen queue c Hnn Hnew).
      simpl in Hfuel. lia.
Qed.

Lemma unseen_cost_nil (h : Heap) (l : list (nat * Obj)) :
  unseen_cost h [] l = sum_list (map (fun ao => expansion_cost h ao.2) l).
Proof. reflexivity. Qed.

Lemma collectErrorCandidates_returns (h : Heap) (err : JsVal) :
  is_Some (collectErrorCandidates h err).
Proof.
  unfold collectErrorCandidates. apply collect_loop_returns.
  rewrite unseen_cost_nil. unfold traversal_bound. simpl. lia.
Qed.

Lemma collect_loop_more_fuel (h : Heap) (fuel : nat) :
  forall queue seen candidates l more,
    collect_loop fuel h queue seen candidates = Some l ->
    collect_loop (fuel + more) h queue seen candidates = Some l.
Proof.
  induction fuel as [|fuel IH]; intros queue seen candidates l more Hrun.
  - destruct queue; simpl in Hrun; [|discriminate].
    destruct (0 + more); simpl; assumption.
  - destruct queue as [|c queue]; simpl in *; [assumption|].
    destruct (is_nullish c || seen_has seen c); apply IH; assumption.
Qed.

(** ** No candidate twice *)

Lemma ForallOrdPairs_snoc {A} (R : A -> A -> Prop) (l : list A) (c : A) :
  ForallOrdPairs R l -> Forall (fun x => R x c) l -> ForallOrdPairs R (l ++ [c]).
Proof.
  induction 1 as [|a l Hal Hl IH]; intros F; simpl.
  - repeat constructor.
  - inversion F; subst. constructor; [|auto].
    apply Forall_app. split; [assumption | constructor; auto].
Qed.

Lemma collect_loop_distinct (h : Heap) (fuel : nat) :
  forall queue seen l,
    collect_loop fuel h queue seen seen = Some l ->
    ForallOrdPairs differ seen -> ForallOrdPairs differ l.
Proof.
  induction fuel as [|fuel IH]; intros queue seen l Hrun Hd.
  - destruct queue; simpl in Hrun; [congruence | discriminate].
  - destruct queue as [|c queue]; simpl in Hrun; [congruence|].
    destruct (is_nullish c || seen_has seen c) eqn:Hskip.
    + eapply IH; eauto.
    + apply orb_false_iff in Hskip as [_ Hnew].
      eapply IH; [exact Hrun|].
      apply ForallOrdPairs_snoc; [assumption|].
      apply seen_has_false. assumption.
Qed.

Lemma differ_NoDup (l : list JsVal) : ForallOrdPairs differ l -> NoDup l.
Proof.
  induction 1 as [|a l Hal Hl IH]; constructor; [|assumption].
  intros Hin. rewrite Forall_forall in Hal.
  specialize (Hal a Hin). unfold differ in Hal.
  rewrite sameValueZero_refl in Hal. discriminate.
Qed.

End TraversalFacts.

Module ChainFacts.
Import Js NetworkErrors JsFacts TraversalFacts.

Lemma enqueue_links_complete (h : Heap) (seen queue : list JsVal) (c w : JsVal) :
  is_object_type (typeof h c) = true -> link h c w -> toBoolean w = true ->
  seen_has seen w = true \/ In w (enqueue_links h seen queue c).
Proof.
  intros Hty Hl T. unfold enqueue_links. rewrite Hty.
  destruct Hl as [| |errors nested He Hin].
  - destruct (push_unseen_complete seen queue _ T) as [?|Hq]; auto. right.
    destruct (array_elems h (get_prop h c "errors"));
      [apply fold_push_unseen_incl|]; apply push_unseen_incl; assumption.
  - match goal with |- context [push_unseen seen ?q (get_prop h c "reason")] =>
      destruct (push_unseen_complete seen q _ T) as [?|Hq] end; auto. right.
    destruct (array_elems h (get_prop h c "errors"));
      [apply fold_push_unseen_incl|]; assumption.
  - rewrite He. apply fold_push_unseen_complete; assumption.
Qed.

Lemma seen_has_mono (seen : list JsVal) (c v : JsVal) :
  seen_has seen v = true -> seen_has (seen ++ [c]) v = true.
Proof. intros E. rewrite seen_has_app, E. reflexivity. Qed.

Lemma closed_skip (h : Heap) (err c : JsVal) (queue seen : list JsVal) :
  is_nullish err = false ->
  is_nullish c || seen_has seen c = true ->
  closed h err (c :: queue) seen -> closed h err queue seen.
Proof.
  intros Herr Hskip [Hroot Hlinks]. split.
  - destruct Hroot as [?|[->|?]]; auto.
    rewrite Herr in Hskip. simpl in Hskip. auto.
  - intros v w Hv Hty Hl T.
    destruct (Hlinks v w Hv Hty Hl T) as [?|[->|?]]; auto.
    rewrite (truthy_not_nullish _ T) in Hskip. simpl in Hskip. auto.
Qed.

Lemma closed_visit (h : Heap) (err c : JsVal) (queue seen : list JsVal) :
  closed h err (c :: queue) seen ->
  closed h err (enqueue_links h (seen ++ [c]) queue c) (seen ++ [c]).
Proof.
  intros [Hroot Hlinks].
  assert (Hc : seen_has (seen ++ [c]) c = true).
  { rewrite seen_has_app, sameValueZero_refl. apply orb_true_r. }
  split.
  - destruct Hroot as [?|[->|?]]; auto using seen_has_mono, enqueue_links_incl.
  - intros v w Hv Hty Hl T. apply in_app_or in Hv as [Hv|[->|[]]].
    + destruct (Hlinks v w Hv Hty Hl T) as [?|[->|?]];
        auto using seen_has_mono, enqueue_links_incl.
    + apply enqueue_links_complete; assumption.
Qed.

Lemma collect_loop_closed (h : Heap) (err : JsVal) (fuel : nat) :
  is_nullish err = false ->
  forall queue seen l,
    collect_loop fuel h queue seen seen = Some l ->
    closed h err queue seen -> closed h err [] l.
Proof.
  intros Herr. induction fuel as [|fuel IH]; intros queue seen l Hrun Hc.
  - destruct queue; simpl in Hrun; [congruence | discriminate].
  - destruct queue as [|c queue]; simpl in Hrun; [congruence|].
    destruct (is_nullish c || seen_has seen c) eqn:Hskip.
    + eapply IH; eauto using closed_skip.
    + eapply IH; eauto using closed_visit.
Qed.

Lemma closed_chain (h : Heap) (err : JsVal) (l : list JsVal) :
  closed h err [] l -> forall c, in_chain h err c -> seen_has l c = true.
Proof.
  intros [Hroot Hlinks] c Hc. induction Hc as [Hnn|v w Hv IH Hty Hl T].
  - destruct Hroot as [?|[]]; assumption.
  - apply seen_has_true in IH as (s & Hs & E).
    assert (s = v) as ->.
    { destruct v; simpl in Hty; try discriminate;
        destruct s; simpl in E; try discriminate; try reflexivity.
      apply Nat.eqb_eq in E. congruence. }
    destruct (Hlinks v w Hs Hty Hl T) as [?|[]]; assumption.
Qed.

Lemma in_chain_truthy (h : Heap) (err c : JsVal) :
  toBoolean err = true -> in_chain h err c -> toBoolean c = true.
Proof. intros T Hc. destruct Hc; assumption. Qed.

(** Every member of the error chain of a truthy [err] is a candidate. *)
Lemma collectErrorCandidates_complete (h : Heap) (err c : JsVal) (l : list JsVal) :
  toBoolean err = true ->
  collectErrorCandidates h err = Some l ->
  in_chain h err c -> In c l.
Proof.
  intros T Hrun Hc.
  assert (Hnn := truthy_not_nullish _ T).
  assert (Hcl : closed h err [] l).
  { eapply collect_loop_closed; [exact Hnn | exact Hrun |].
    split; [right; simpl; auto | intros v w []]. }
  pose proof (closed_chain h err l Hcl c Hc) as Hs.
  apply seen_has_true in Hs as (s & Hs & E).
  rewrite (sameValueZero_truthy s c E (in_chain_truthy h err c T Hc)) in Hs.
  exact Hs.
Qed.

Section ClassifierFacts.
Context `{Imports}.

Lemma classify_code (h : Heap) (allow : bool) (l : list JsVal) (c : JsVal) :
  In c l -> code_signal h c = true -> classify h allow l = true.
Proof.
  induction l as [|x l IH]; simpl; [contradiction|].
  intros [->|Hin] Hc.
  - rewrite Hc. reflexivity.
  - destruct (code_signal h x); [reflexivity|].
    destruct (name_signal h x); [reflexivity|].
    destruct (allow && message_signal h x); [reflexivity|]. auto.
Qed.

Lemma classify_no_message (h : Heap) (l : list JsVal) :
  Forall (fun c => code_signal h c = false /\ name_signal h c = false) l ->
  classify h false l = false.
Proof.
  induction 1 as [|x l [Hc Hn] Hl IH]; simpl; [reflexivity|].
  rewrite Hc, Hn. simpl. assumption.
Qed.

Lemma classify_message (h : Heap) (l : list JsVal) (c : JsVal) :
  In c l -> message_signal h c = true -> classify h true l = true.
Proof.
  induction l as [|x l IH]; simpl; [contradiction|].
  intros [->|Hin] Hc.
  - rewrite Hc. destruct (code_signal h c); [reflexivity|].
    destruct (name_signal h c); reflexivity.
  - destruct (code_signal h x); [reflexivity|].
    destruct (name_signal h x); [reflexivity|].
    destruct (message_signal h x); simpl; auto.
Qed.

End ClassifierFacts.

End ChainFacts.

(* ===================================================================== *)
(** * The network-error classifier *)
(* ===================================================================== *)

Module ClassifierProofs.
Import Js NetworkErrors JsFacts StringFacts TraversalFacts ChainFacts Samples.

Lemma push_unseen_in (seen queue : list JsVal) (v w : JsVal) :
  In w (push_unseen seen queue v) -> In w queue \/ (w = v /\ toBoolean v = true).
Proof.
  unfold push_unseen. destruct (toBoolean v) eqn:T; simpl; auto.
  destruct (negb (seen_has seen v)); auto.
  intros Hin. apply in_app_or in Hin as [?|[<-|[]]]; auto.
Qed.

Lemma fold_push_unseen_in (seen errors queue : list JsVal) (w : JsVal) :
  In w (fold_left (push_unseen seen) errors queue) ->
  In w queue \/ (In w errors /\ toBoolean w = true).
Proof.
  revert queue. induction errors as [|e errors IH]; intros queue; simpl; auto.
  intros Hin. destruct (IH _ Hin) as [Hq|[? ?]]; auto.
  destruct (push_unseen_in _ _ _ _ Hq) as [?|[-> ?]]; auto.
Qed.

Lemma enqueue_links_in (h : Heap) (seen queue : list JsVal) (c w : JsVal) :
  In w (enqueue_links h seen queue c) ->
  In w queue
  \/ (is_object_type (typeof h c) = true /\ link h c w /\ toBoolean w = true).
Proof.
  unfold enqueue_links. destruct (is_object_type (typeof h c)); auto.
  intros Hin.
  assert (Hpushed : forall q, In w (push_unseen seen (push_unseen seen queue
                      (get_prop h c "cause")) (get_prop h c "reason")) ->
                    q = queue -> In w q \/ (true = true /\ link h c w /\ toBoolean w = true)).
  { intros q Hq ->.
    destruct (push_unseen_in _ _ _ _ Hq) as [Hq'|[-> ?]];
      [|right; repeat split; auto; constructor].
    destruct (push_unseen_in _ _ _ _ Hq') as [?|[-> ?]];
      [auto | right; repeat split; auto; constructor]. }
  destruct (array_elems h (get_prop h c "errors")) as [errors|] eqn:He.
  - destruct (fold_push_unseen_in _ _ _ _ Hin) as [Hq|[? ?]].
    + apply (Hpushed queue Hq eq_refl).
    + right. repeat split; auto. econstructor 3; eauto.
  - apply (Hpushed queue Hin eq_refl).
Qed.

Lemma collect_loop_sound (h : Heap) (err : JsVal) (fuel : nat) :
  forall queue seen l,
    collect_loop fuel h queue seen seen = Some l ->
    (forall v, In v queue -> is_nullish v = false -> in_chain h err v) ->
    (forall v, In v seen -> in_chain h err v) ->
    forall v, In v l -> in_chain h err v.
Proof.
  induction fuel as [|fuel IH]; intros queue seen l Hrun Hq Hs.
  - destruct queue; simpl in Hrun; [|discriminate].
    injection Hrun as <-. assumption.
  - destruct queue as [|c queue]; simpl in Hrun.
    { injection Hrun as <-. assumption. }
    destruct (is_nullish c || seen_has seen c) eqn:Hskip.
    + eapply IH; eauto. intros; apply Hq; simpl; auto.
    + apply orb_false_iff in Hskip as [Hnn _].
      assert (Hc : in_chain h err c) by (apply Hq; simpl; auto).
      eapply IH; [exact Hrun | |].
      * intros v Hv Hvn. apply enqueue_links_in in Hv as [?|(Hty & Hl & T)].
        -- apply Hq; simpl; auto.
        -- eapply chain_link; eauto.
      * intros v Hv. apply in_app_or in Hv as [?|[<-|[]]]; auto.
Qed.

(** The candidates are members of the error chain. *)
Lemma collectErrorCandidates_sound (h : Heap) (err : JsVal) (l : list JsVal) :
  collectErrorCandidates h err = Some l -> forall v, In v l -> in_chain h err v.
Proof.
  intros Hrun. eapply collect_loop_sound; [exact Hrun | |].
  - intros v [<-|[]] Hnn. constructor. assumption.
  - intros v [].
Qed.

Lemma recoverable_code_nonempty (s : string) :
  string_set_has RECOVERABLE_ERROR_CODES s = true -> nonempty s = true.
Proof.
  unfold string_set_has. intros Hs. apply existsb_exists in Hs as (c & Hin & E).
  apply String.eqb_eq in E. subst c.
  simpl in Hin. repeat destruct Hin as [<-|Hin]; try reflexivity. contradiction.
Qed.

Lemma recoverable_code_not_numeric (s : string) :
  string_set_has RECOVERABLE_ERROR_CODES s = true ->
  string_forallb upper_number_char s = false.
Proof.
  unfold string_set_has. intros Hs. apply existsb_exists in Hs as (c & Hin & E).
  apply String.eqb_eq in E. subst c.
  simpl in Hin. repeat destruct Hin as [<-|Hin]; try reflexivity. contradiction.
Qed.

Section Classifier.
Context `{Imports}.

(** C3. For every input value, whatever the cycles and the sharing among the
    [cause], [reason] and [errors] references of the heap,
    [collectErrorCandidates] returns: the loop ends within [traversal_bound]
    iterations, and with any larger allowance it returns the same list.  The
    list holds no value twice: any two entries differ under SameValueZero,
    the comparison of the visited set, so an object occurs at most once. *)
Theorem collectErrorCandidates_terminates_without_repeats (h : Heap) (err : JsVal) :
  exists candidates,
    collectErrorCandidates h err = Some candidates
    /\ (forall more, collect_loop (traversal_bound h + more) h [err] [] [] = Some candidates)
    /\ NoDup candidates
    /\ ForallOrdPairs differ candidates.
Proof.
  destruct (collectErrorCandidates_returns h err) as [l Hl].
  exists l. split; [exact Hl|].
  split; [intros more; apply collect_loop_more_fuel; exact Hl|].
  assert (Hd : ForallOrdPairs differ l).
  { eapply collect_loop_distinct; [exact Hl | constructor]. }
  split; [apply differ_NoDup|]; assumption.
Qed.



(** C9. For a falsy [err] (null, undefined, the empty string, 0, NaN, false,
    0n) [isRecoverableTelegramNetworkError] returns false, whatever the
    options. *)
Theorem falsy_error_is_not_recoverable (h : Heap) (err : JsVal) (options : Options) :
  toBoolean err = false ->
  isRecoverableTelegramNetworkError h err options = Some false.
Proof.
  intros T. unfold isRecoverableTelegramNetworkError. rewrite T. reflexivity.
Qed.

(** C10. For an object for which [extractErrorCode] gives no code and whose
    [errno] is a number, [getErrorCode] is the decimal string of that number
    ([String(errno)]), and the code signal does not fire: the normalized
    string is made of the characters of a number and none of the recoverable
    codes is. *)
Theorem numeric_errno_is_never_a_recoverable_code
    (h : Heap) (candidate : JsVal) (errno : spec_float) :
  from_option nonempty false (extractErrorCode h candidate) = false ->
  typeof h candidate = TObject ->
  get_prop h candidate "errno" = VNum errno ->
  getErrorCode h candidate = Some (NumberToString errno)
  /\ string_set_has RECOVERABLE_ERROR_CODES (normalizeCode (getErrorCode h candidate)) = false
  /\ code_signal h candidate = false.
Proof.
  intros Hdirect Hty Herrno.
  assert (Hcode : getErrorCode h candidate = Some (NumberToString errno)).
  { unfold getErrorCode. rewrite Hdirect, Hty, Herrno.
    destruct candidate; simpl in Herrno; try discriminate. reflexivity. }
  assert (Hset : string_set_has RECOVERABLE_ERROR_CODES
                   (normalizeCode (getErrorCode h candidate)) = false).
  { rewrite Hcode. unfold normalizeCode.
    destruct (string_set_has RECOVERABLE_ERROR_CODES
                (toUpperCase (trim (NumberToString errno)))) eqn:Hs; [|reflexivity].
    apply recoverable_code_not_numeric in Hs.
    rewrite (string_forallb_map number_char upper_number_char upper_char) in Hs;
      [discriminate | exact upper_char_number |].
    apply string_forallb_trim, NumberToString_chars. }
  repeat split; try assumption.
  unfold code_signal. rewrite Hset. apply andb_false_r.
Qed.

End Classifier.


Lemma message_heap_chain (c : JsVal) :
  in_chain message_heap (VObj 1) c -> c = VObj 1.
Proof.
  induction 1 as [|v w Hv IH Hty Hl T]; [reflexivity|]. subst v.
  destruct Hl as [| |errors nested He Hin]; try discriminate T.
  vm_compute in He. discriminate.
Qed.


Lemma falsy_error_witness :
  toBoolean (VStr "") = false
  /\ isRecoverableTelegramNetworkError message_heap (VStr "")
       {| context := Some polling; allowMessageMatch := Some true |} = Some false.
Proof.
  split; [reflexivity|].
  apply (falsy_error_is_not_recoverable message_heap (VStr "")). reflexivity.
Defined.

Lemma numeric_errno_witness :
  getErrorCode errno_heap (VObj 1) = Some "-104"
  /\ string_set_has RECOVERABLE_ERROR_CODES
       (normalizeCode (getErrorCode errno_heap (VObj 1))) = false
  /\ code_signal errno_heap (VObj 1) = false.
Proof.
  apply (numeric_errno_is_never_a_recoverable_code errno_heap (VObj 1) (number_of_Z (-104)));
    reflexivity.
Defined.

End ClassifierProofs.

(* ===================================================================== *)
(** * The logging wrapper *)
(* ===================================================================== *)

Module ApiLoggingProofs.
Import Js Retry ApiLogging Samples.

Section Logging.
Context `{Imports} {World : Type} `{Host World}.


End Logging.


End ApiLoggingProofs.

(* ===================================================================== *)
(** * The channel retry runners *)
(* ===================================================================== *)

Module RetryPolicyProofs.
Import Js Retry RetryPolicy Samples.

Lemma is_object_has_prop (h : Heap) (v : JsVal) (k : string) :
  is_object h (get_prop h v k) = true -> has_prop h v k = true.
Proof.
  unfold get_prop, has_prop. destruct v; try discriminate.
  destruct (h !! a) as [o|]; [|discriminate].
  destruct (obj_props o !! k) eqn:E; [|discriminate].
  intros _. apply bool_decide_eq_true. eauto.
Qed.

Lemma optional_retry_after_get (h : Heap) (p : JsVal) :
  optional_retry_after h p = get_prop h p "retry_after".
Proof. unfold optional_retry_after. destruct p; reflexivity. Qed.

Section Runners.
Context `{Imports} {World : Type} `{Host World}.

(** C5. The runner that [createDiscordRetryRunner] builds hands
    [retryAsync] a [shouldRetry] that is true exactly on the instances of
    [RateLimitError] and a [retryAfterMs] that is [retryAfter * 1000] on
    them and undefined on anything else.  With the engine of the spec, an
    operation that raises another error is invoked once and that error comes
    back (no hook, no wait), and a rate-limit error raised while attempts
    remain is followed by the wait and another invocation. *)
Theorem discord_runner_retries_rate_limits_only
    (params : DiscordParams) (label : option string) :
  let o := discord_options params label in
  (forall h e, ro_shouldRetry o h e = true <-> exists r, as_RateLimitError h e = Some r)
  /\ (forall h e r, as_RateLimitError h e = Some r ->
        ro_retryAfterMs o h e = Some (number_mul r number_1000))
  /\ (forall h e, as_RateLimitError h e = None -> ro_retryAfterMs o h e = None)
  /\ (forall (T : Type) (fn : Operation World T) w e w1,
        fn w = (Thrown e, w1) ->
        as_RateLimitError (world_heap w1) e = None ->
        createDiscordRetryRunner params fn label w = (Thrown e, w1))
  /\ (forall (T : Type) (fn : Operation World T) w e w1 r budget,
        fn w = (Thrown e, w1) ->
        as_RateLimitError (world_heap w1) e = Some r ->
        attempt_budget (ro_config o) = S (S budget) ->
        let d := Math_max (number_mul r number_1000) (minDelayMs (ro_config o)) in
        let info := {| attempt := number_of_Z 1;
                       maxAttempts := attempts (ro_config o);
                       delayMs := d; label := label; err := e |} in
        let w2 := match ro_onRetry o with
                  | Some hook => hook info w1
                  | None => w1
                  end in
        createDiscordRetryRunner params fn label w
        = retry_from budget 2 fn o (sleep d w2)).
Proof.
  cbv zeta. repeat split.
  - simpl. unfold discord_shouldRetry.
    destruct (as_RateLimitError h e); [eauto | discriminate].
  - intros [r E]. simpl. unfold discord_shouldRetry. rewrite E. reflexivity.
  - intros h e r E. simpl. unfold discord_retryAfterMs. rewrite E. reflexivity.
  - intros h e E. simpl. unfold discord_retryAfterMs. rewrite E. reflexivity.
  - intros T fn w e w1 Efn Ee. unfold createDiscordRetryRunner, retryAsync.
    destruct (attempt_budget _ - 1) as [|k]; simpl; rewrite Efn; [reflexivity|].
    unfold discord_shouldRetry. rewrite Ee. reflexivity.
  - intros T fn w e w1 r budget Efn Ee Eb.
    unfold createDiscordRetryRunner, retryAsync. rewrite Eb.
    replace (S (S budget) - 1) with (S budget) by lia.
    simpl. rewrite Efn. unfold discord_shouldRetry, discord_retryAfterMs.
    rewrite Ee. reflexivity.
Qed.


(** C7, as the code has it.  With [verbose] true each runner has a hook, and
    for each retry it writes one line on the console: for Discord
    ["discord <label or request> rate limited, retry <n>/<max> in <ms>ms"],
    for Telegram
    ["telegram send retry <n>/<max> for <label or request> in <ms>ms: <message>"],
    where [<n>] is [attempt], [<ms>] is [delayMs] and [<max>] is
    [max(1, maxAttempts - 1)], the number of retries.  Without [verbose]
    there is no hook. *)
Theorem verbose_retry_lines (label : option string) (info : RetryAttemptInfo) (w : World) :
  let n := NumberToString (attempt info) in
  let max := NumberToString (Math_max number_one (number_sub (maxAttempts info) number_one)) in
  let ms := NumberToString (delayMs info) in
  (exists hook,
     discord_onRetry (Some true) = Some hook
     /\ hook info w
        = console_warn ("discord " +:+ default "request" (Retry.label info)
                        +:+ " rate limited, retry " +:+ n +:+ "/" +:+ max
                        +:+ " in " +:+ ms +:+ "ms") w)
  /\ (exists hook,
        telegram_onRetry (Some true) label = Some hook
        /\ hook info w
           = console_warn ("telegram send retry " +:+ n +:+ "/" +:+ max +:+ " for "
                           +:+ default (default "request" label) (Retry.label info)
                           +:+ " in " +:+ ms +:+ "ms: "
                           +:+ formatErrorMessage (world_heap w) (err info)) w)
  /\ discord_onRetry (World := World) (Some false) = None
  /\ discord_onRetry (World := World) None = None
  /\ telegram_onRetry (World := World) (Some false) label = None
  /\ telegram_onRetry (World := World) None label = None.
Proof.
  cbv zeta. repeat split; try reflexivity.
  - eexists. split; reflexivity.
  - eexists. split; [reflexivity|].
    unfold telegram_retry_line. destruct (Retry.label info); reflexivity.
Qed.

End Runners.


(** C7 as stated fails: on the first retry of three attempts the Discord
    line is not the described one, nor the described one followed by a
    message, and neither is the Telegram line. *)
Lemma retry_lines_differ_from_description :
  discord_retry_line sample_info = "discord sendMessage rate limited, retry 1/2 in 400ms"
  /\ described_retry_line "discord" sample_info None = "discord sendMessage retry 1/3 in 400ms"
  /\ String.prefix (described_retry_line "discord" sample_info None)
       (discord_retry_line sample_info) = false
  /\ telegram_retry_line discord_heap None sample_info
     = "telegram send retry 1/2 for sendMessage in 400ms: boom"
  /\ described_retry_line "telegram" sample_info (Some "boom")
     = "telegram sendMessage retry 1/3 in 400ms: boom"
  /\ String.prefix (described_retry_line "telegram" sample_info None)
       (telegram_retry_line discord_heap None sample_info) = false.
Proof. repeat split; reflexivity. Qed.

(** A rate-limit error is retried until the three attempts are used, each
    time after the mandated 2000 ms; another error comes back at once. *)
Lemma discord_runner_witness :
  (createDiscordRetryRunner
     {| d_retry := None; d_configRetry := None; d_verbose := None |}
     (failing 2) None (world_of discord_heap)).2.(sw_events)
  = [Called]
  /\ (createDiscordRetryRunner
        {| d_retry := None; d_configRetry := None; d_verbose := None |}
        (failing 1) None (world_of discord_heap)).2.(sw_events)
     = [Called; Slept (number_of_Z 2000); Called; Slept (number_of_Z 2000); Called].
Proof.
  pose proof (discord_runner_retries_rate_limits_only
    {| d_retry := None; d_configRetry := None; d_verbose := None |} None)
    as (_ & _ & _ & Hfast & Hretry).
  split.
  - rewrite (Hfast unit (failing 2) (world_of discord_heap) (VObj 2)
               (record Called (world_of discord_heap)) eq_refl eq_refl).
    reflexivity.
  - rewrite (Hretry unit (failing 1) (world_of discord_heap) (VObj 1)
               (record Called (world_of discord_heap)) (number_of_Z 2) 1
               eq_refl eq_refl eq_refl).
    reflexivity.
Defined.


End RetryPolicyProofs.

(* ===================================================================== *)
(** * The backoff calculator *)
(* ===================================================================== *)

Module BackoffProofs.
Import Backoff.

(** C8. With a jitter fraction of 0 the delay does not depend on the random
    sample and is [min(baseDelayMs * 2^attemptIndex, maxDelayMs)]; for a
    base of 400 and a cap of 30000 the delays at the indices 0, 1 and 2 are
    400, 800 and 1600, and at index 10 the delay is the cap, 30000. *)
Theorem computeDelay_without_jitter (baseDelayMs attemptIndex maxDelayMs : N) (U : Q) :
  computeDelay baseDelayMs attemptIndex maxDelayMs 0 U
  = N.min (baseDelayMs * 2 ^ attemptIndex) maxDelayMs
  /\ computeDelay 400 0 30000 0 U = 400%N
  /\ computeDelay 400 1 30000 0 U = 800%N
  /\ computeDelay 400 2 30000 0 U = 1600%N
  /\ computeDelay 400 10 30000 0 U = 30000%N.
Proof.
  assert (G : forall b i m, computeDelay b i m 0 U = N.min (b * 2 ^ i) m).
  { intros b i m. unfold computeDelay.
    assert (E : (inject_Z (Z.of_N (N.min (b * 2 ^ i) m)) * (1 + (U - (1 # 2)) * 2 * 0)
                 == inject_Z (Z.of_N (N.min (b * 2 ^ i) m)))%Q) by ring.
    rewrite E, Qfloor_Z. apply N2Z.id. }
  repeat split; rewrite G; reflexivity.
Qed.

End BackoffProofs.

(* ===================================================================== *)
(** * More on the traversal and the classifier *)
(* ===================================================================== *)

Module ChainProperties.
Import Js NetworkErrors JsFacts StringFacts TraversalFacts ChainFacts ClassifierProofs Samples.

Lemma collect_loop_done (h : Heap) (fuel : nat) (seen candidates : list JsVal) :
  collect_loop fuel h [] seen candidates = Some candidates.
Proof. destruct fuel; reflexivity. Qed.

Lemma collect_not_object (h : Heap) (err : JsVal) :
  is_nullish err = false -> is_object_type (typeof h err) = false ->
  collectErrorCandidates h err = Some [err].
Proof.
  intros Hnn Hty. unfold collectErrorCandidates, traversal_bound. simpl.
  rewrite Hnn. simpl. unfold enqueue_links. rewrite Hty. apply collect_loop_done.
Qed.

Lemma collect_nullish (h : Heap) (err : JsVal) :
  is_nullish err = true -> collectErrorCandidates h err = Some [].
Proof.
  intros Hn. unfold collectErrorCandidates, traversal_bound. simpl.
  rewrite Hn. apply collect_loop_done.
Qed.

Lemma in_chain_not_nullish (h : Heap) (err c : JsVal) :
  in_chain h err c -> is_nullish err = false /\ is_nullish c = false.
Proof.
  induction 1 as [Hnn|v w Hv [IH _] Hty Hl T]; [auto|].
  split; [assumption | apply truthy_not_nullish; assumption].
Qed.

Lemma in_chain_of_not_object (h : Heap) (err c : JsVal) :
  is_object_type (typeof h err) = false -> in_chain h err c -> c = err.
Proof.
  intros Hty. induction 1 as [|v w Hv IH Hty' Hl T]; [reflexivity|].
  subst v. congruence.
Qed.

Lemma toBoolean_false_not_object (h : Heap) (err : JsVal) :
  toBoolean err = false -> is_nullish err = false ->
  is_object_type (typeof h err) = false.
Proof. destruct err; simpl; try discriminate; reflexivity. Qed.

Lemma candidates_iff_chain (h : Heap) (err : JsVal) (l : list JsVal) :
  collectErrorCandidates h err = Some l ->
  forall c, In c l <-> in_chain h err c.
Proof.
  intros Hl c. split; [apply (collectErrorCandidates_sound h err l Hl)|].
  intros Hc. destruct (toBoolean err) eqn:T.
  - eapply collectErrorCandidates_complete; eauto.
  - destruct (in_chain_not_nullish h err c Hc) as [Hnn _].
    pose proof (toBoolean_false_not_object h err T Hnn) as Hty.
    rewrite (collect_not_object h err Hnn Hty) in Hl. injection Hl as <-.
    rewrite (in_chain_of_not_object h err c Hty Hc). simpl. auto.
Qed.

Lemma collect_loop_prefix (h : Heap) (fuel : nat) :
  forall queue seen candidates l,
    collect_loop fuel h queue seen candidates = Some l ->
    exists rest, l = candidates ++ rest.
Proof.
  induction fuel as [|fuel IH]; intros queue seen candidates l Hrun.
  - destruct queue; simpl in Hrun; [|discriminate].
    injection Hrun as <-. exists []. rewrite app_nil_r. reflexivity.
  - destruct queue as [|c queue]; simpl in Hrun.
    { injection Hrun as <-. exists []. rewrite app_nil_r. reflexivity. }
    destruct (is_nullish c || seen_has seen c).
    + eapply IH; eauto.
    + destruct (IH _ _ _ _ Hrun) as [rest ->].
      exists (c :: rest). rewrite <- app_assoc. reflexivity.
Qed.

Lemma in_chain_step (h : Heap) (err w c : JsVal) :
  toBoolean err = true -> is_object_type (typeof h err) = true ->
  link h err w -> toBoolean w = true ->
  in_chain h w c -> in_chain h err c.
Proof.
  intros T Hty Hl Tw. induction 1 as [|v x Hv IH Hty' Hl' Tx].
  - eapply chain_link; eauto. constructor. apply truthy_not_nullish. assumption.
  - eapply chain_link; eauto.
Qed.

(** X1. The candidates of [err] are exactly the members of its error chain:
    [err] itself unless it is null or undefined, and every truthy value
    reached from it through the [cause], the [reason] and the elements of an
    [errors] array of the objects on the way; nothing else is collected and
    none of the entries is null or undefined. *)
Theorem candidates_are_exactly_the_chain (h : Heap) (err : JsVal) :
  exists candidates,
    collectErrorCandidates h err = Some candidates
    /\ (forall c, In c candidates <-> in_chain h err c)
    /\ Forall (fun c => is_nullish c = false) candidates.
Proof.
  destruct (collectErrorCandidates_returns h err) as [l Hl].
  exists l. split; [exact Hl|]. split; [apply candidates_iff_chain; exact Hl|].
  apply Forall_forall. intros c Hc. apply list_elem_of_In in Hc.
  apply (candidates_iff_chain h err l Hl) in Hc.
  apply (in_chain_not_nullish h err c Hc).
Qed.

(** X2. The edges of the traversal: null and undefined give the empty list; a
    value that is not an object (a string, a number, a boolean, a function)
    gives the list of that value alone, its properties are not followed;
    and for any other value the list starts with the value itself. *)
Theorem collectErrorCandidates_edges (h : Heap) (err : JsVal) :
  (is_nullish err = true -> collectErrorCandidates h err = Some [])
  /\ (is_nullish err = false -> is_object_type (typeof h err) = false ->
        collectErrorCandidates h err = Some [err])
  /\ (is_nullish err = false ->
        exists rest, collectErrorCandidates h err = Some (err :: rest)).
Proof.
  split; [apply collect_nullish|]. split; [apply collect_not_object|].
  intros Hnn. destruct (collectErrorCandidates_returns h err) as [l Hl].
  revert Hl. unfold collectErrorCandidates, traversal_bound. simpl.
  rewrite Hnn. simpl. intros Hl.
  destruct (collect_loop_prefix _ _ _ _ _ _ Hl) as [rest E].
  exists rest. rewrite Hl, E. reflexivity.
Qed.

Section Verdict.
Context `{Imports}.

Lemma classify_true_iff (h : Heap) (allow : bool) (l : list JsVal) :
  classify h allow l = true <->
  exists c, In c l /\ (code_signal h c = true \/ name_signal h c = true
                       \/ (allow = true /\ message_signal h c = true)).
Proof.
  induction l as [|x l IH]; simpl.
  - split; [discriminate | intros (c & [] & _)].
  - destruct (code_signal h x) eqn:Ec; [split; eauto 6|].
    destruct (name_signal h x) eqn:En; [split; eauto 6|].
    destruct (allow && message_signal h x) eqn:Em.
    { apply andb_true_iff in Em as [-> Em]. split; eauto 8. }
    rewrite IH. split.
    + intros (c & Hc & Hs). eauto.
    + intros (c & [<-|Hc] & Hs); [|eauto].
      destruct Hs as [?|[?|[-> Hm]]]; try congruence.
      rewrite Hm in Em. discriminate.
Qed.

Lemma isRecoverable_true_iff (h : Heap) (err : JsVal) (options : Options) :
  isRecoverableTelegramNetworkError h err options = Some true <->
  toBoolean err = true
  /\ exists c, in_chain h err c
       /\ (code_signal h c = true \/ name_signal h c = true
           \/ (match allowMessageMatch options with
               | Some b => b
               | None => negb (is_send (context options))
               end = true /\ message_signal h c = true)).
Proof.
  unfold isRecoverableTelegramNetworkError.
  destruct (toBoolean err) eqn:T; simpl.
  2: { split; [discriminate | intros [? _]; discriminate]. }
  destruct (collectErrorCandidates_returns h err) as [l Hl]. rewrite Hl.
  split.
  - intros E. injection E as E. apply classify_true_iff in E as (c & Hc & Hs).
    split; [reflexivity|]. exists c. split; [|exact Hs].
    apply (candidates_iff_chain h err l Hl). exact Hc.
  - intros (_ & c & Hc & Hs). f_equal. apply classify_true_iff.
    exists c. split; [|exact Hs]. apply (candidates_iff_chain h err l Hl). exact Hc.
Qed.

Lemma isRecoverable_returns (h : Heap) (err : JsVal) (options : Options) :
  exists b, isRecoverableTelegramNetworkError h err options = Some b.
Proof.
  unfold isRecoverableTelegramNetworkError.
  destruct (toBoolean err); simpl; [|eauto].
  destruct (collectErrorCandidates_returns h err) as [l Hl]. rewrite Hl. eauto.
Qed.


(** X4. The "send" context is the most conservative: an error that is
    recoverable under "send" with [allowMessageMatch] unset (or under any
    context with [allowMessageMatch] false) is recoverable under every
    option; and the contexts other than "send", and no context at all, give
    the same answer. *)
Theorem send_is_the_most_conservative_context (h : Heap) (err : JsVal) :
  (isRecoverableTelegramNetworkError h err
     {| context := Some send; allowMessageMatch := None |} = Some true ->
   forall options, isRecoverableTelegramNetworkError h err options = Some true)
  /\ (forall ctx,
        isRecoverableTelegramNetworkError h err
          {| context := ctx; allowMessageMatch := Some false |}
        = isRecoverableTelegramNetworkError h err
            {| context := Some send; allowMessageMatch := None |})
  /\ (forall ctx amm, ctx <> Some send ->
        isRecoverableTelegramNetworkError h err
          {| context := ctx; allowMessageMatch := amm |}
        = isRecoverableTelegramNetworkError h err
            {| context := None; allowMessageMatch := amm |}).
Proof.
  split; [|split].
  - intros E options. apply isRecoverable_true_iff.
    apply isRecoverable_true_iff in E as (T & c & Hc & Hs).
    split; [exact T|]. exists c. split; [exact Hc|].
    destruct Hs as [?|[?|[Hf _]]]; auto. discriminate Hf.
  - intros ctx. reflexivity.
  - intros ctx amm Hctx. unfold isRecoverableTelegramNetworkError. simpl.
    destruct ctx as [[]|]; try reflexivity. congruence.
Qed.

(** X5. Wrapping keeps an error recoverable: if an object links to a truthy
    value through its [cause], its [reason] or an element of its [errors]
    array, and that value is recoverable under some options, then the object
    is recoverable under the same options. *)
Theorem wrapping_keeps_an_error_recoverable
    (h : Heap) (err inner : JsVal) (options : Options) :
  toBoolean err = true ->
  is_object_type (typeof h err) = true ->
  link h err inner ->
  isRecoverableTelegramNetworkError h inner options = Some true ->
  isRecoverableTelegramNetworkError h err options = Some true.
Proof.
  intros T Hty Hl E. apply isRecoverable_true_iff.
  apply isRecoverable_true_iff in E as (Ti & c & Hc & Hs).
  split; [exact T|]. exists c. split; [|exact Hs].
  eapply in_chain_step; eauto.
Qed.

Lemma getErrorName_not_object (h : Heap) (err : JsVal) :
  is_object_type (typeof h err) = false -> getErrorName h err = "".
Proof.
  intros Hty. unfold getErrorName. rewrite Hty.
  destruct (toBoolean err); reflexivity.
Qed.


End Verdict.

Lemma send_is_the_most_conservative_witness :
  isRecoverableTelegramNetworkError cyclic_heap (VObj 1)
    {| context := Some send; allowMessageMatch := None |} = Some true
  /\ isRecoverableTelegramNetworkError cyclic_heap (VObj 1)
       {| context := Some polling; allowMessageMatch := Some true |} = Some true.
Proof.
  split; [reflexivity|].
  apply (proj1 (send_is_the_most_conservative_context cyclic_heap (VObj 1))).
  reflexivity.
Defined.

(** The error of [cyclic_heap] has a cause that is recoverable by its code. *)
Lemma wrapping_keeps_an_error_recoverable_witness :
  link cyclic_heap (VObj 1) (VObj 2)
  /\ isRecoverableTelegramNetworkError cyclic_heap (VObj 2)
       {| context := Some send; allowMessageMatch := None |} = Some true
  /\ isRecoverableTelegramNetworkError cyclic_heap (VObj 1)
       {| context := Some send; allowMessageMatch := None |} = Some true.
Proof.
  assert (Hl : link cyclic_heap (VObj 1) (VObj 2))
    by exact (link_cause cyclic_heap (VObj 1)).
  split; [exact Hl|]. split; [reflexivity|].
  apply (wrapping_keeps_an_error_recoverable cyclic_heap (VObj 1) (VObj 2));
    [reflexivity | reflexivity | exact Hl | reflexivity].
Defined.


End ChainProperties.

(* ===================================================================== *)
(** * Normalization of codes *)
(* ===================================================================== *)

Module NormalizeProperties.
Import Js NetworkErrors.

Lemma string_map_app (f : ascii -> ascii) (s t : string) :
  string_map f (s +:+ t) = string_map f s +:+ string_map f t.
Proof. induction s as [|c s IH]; simpl; [reflexivity|]. rewrite IH. reflexivity. Qed.

Lemma string_map_map (f g : ascii -> ascii) (s : string) :
  string_map f (string_map g s) = string_map (fun c => f (g c)) s.
Proof. induction s as [|c s IH]; simpl; [reflexivity|]. rewrite IH. reflexivity. Qed.

Lemma string_map_ext (f g : ascii -> ascii) (s : string) :
  (forall c, f c = g c) -> string_map f s = string_map g s.
Proof.
  intros E. induction s as [|c s IH]; simpl; [reflexivity|]. rewrite E, IH. reflexivity.
Qed.

Lemma upper_lower_char (c : ascii) : upper_char (lower_char c) = upper_char c.
Proof. destruct c as [[] [] [] [] [] [] [] []]; reflexivity. Qed.

Lemma whitespace_lower_char (c : ascii) : is_whitespace (lower_char c) = is_whitespace c.
Proof. destruct c as [[] [] [] [] [] [] [] []]; reflexivity. Qed.

Lemma string_map_empty (f : ascii -> ascii) (s : string) :
  String.eqb (string_map f s) "" = String.eqb s "".
Proof. destruct s; reflexivity. Qed.

Lemma trimStart_map (f : ascii -> ascii) (s : string) :
  (forall c, is_whitespace (f c) = is_whitespace c) ->
  trimStart (string_map f s) = string_map f (trimStart s).
Proof.
  intros Hf. induction s as [|c s IH]; simpl; [reflexivity|].
  rewrite Hf. destruct (is_whitespace c); [exact IH | reflexivity].
Qed.

Lemma trimEnd_map (f : ascii -> ascii) (s : string) :
  (forall c, is_whitespace (f c) = is_whitespace c) ->
  trimEnd (string_map f s) = string_map f (trimEnd s).
Proof.
  intros Hf. induction s as [|c s IH]; simpl; [reflexivity|].
  rewrite Hf, IH, string_map_empty.
  destruct (is_whitespace c && String.eqb (trimEnd s) ""); reflexivity.
Qed.

Lemma trimStart_padding (pre s : string) :
  string_forallb is_whitespace pre = true ->
  trimStart (pre +:+ s) = trimStart s.
Proof.
  induction pre as [|c pre IH]; simpl; [reflexivity|].
  intros Hp. apply andb_true_iff in Hp as [-> Hp]. auto.
Qed.

Lemma trimEnd_whitespace (post : string) :
  string_forallb is_whitespace post = true -> trimEnd post = "".
Proof.
  induction post as [|c post IH]; simpl; [reflexivity|].
  intros Hp. apply andb_true_iff in Hp as [-> Hp]. rewrite (IH Hp). reflexivity.
Qed.

Lemma trimEnd_padding (s post : string) :
  string_forallb is_whitespace post = true ->
  trimEnd (s +:+ post) = trimEnd s.
Proof.
  intros Hp. induction s as [|c s IH]; simpl.
  - apply trimEnd_whitespace. assumption.
  - rewrite IH. reflexivity.
Qed.

Lemma trimStart_whitespace (post : string) :
  string_forallb is_whitespace post = true -> trimStart post = "".
Proof.
  induction post as [|c post IH]; simpl; [reflexivity|].
  intros Hp. apply andb_true_iff in Hp as [-> Hp]. auto.
Qed.

Lemma trim_padding_end (s post : string) :
  string_forallb is_whitespace post = true ->
  trim (s +:+ post) = trim s.
Proof.
  intros Hp. unfold trim. induction s as [|c s IH]; simpl.
  - change ("" +:+ post) with post. rewrite (trimStart_whitespace post Hp). reflexivity.
  - destruct (is_whitespace c); [exact IH|].
    change (String c (s +:+ post)) with (String c s +:+ post).
    apply trimEnd_padding. assumption.
Qed.

Lemma trim_padding (pre s post : string) :
  string_forallb is_whitespace pre = true ->
  string_forallb is_whitespace post = true ->
  trim (pre +:+ s +:+ post) = trim s.
Proof.
  intros Hpre Hpost. unfold trim at 1. rewrite (trimStart_padding pre _ Hpre).
  apply (trim_padding_end s post Hpost).
Qed.



End NormalizeProperties.

(* ===================================================================== *)
(** * More on the retry runners and the logging wrapper *)
(* ===================================================================== *)

Module RunnerProperties.
Import Js Retry RetryPolicy ApiLogging NetworkErrors NormalizeProperties Samples.

(** ** Rounding never gives NaN *)

Lemma shr_1_nonneg (mrs : shr_record) : (0 <= shr_m mrs -> 0 <= shr_m (shr_1 mrs))%Z.
Proof.
  destruct mrs as [m r s]. destruct m as [|[p|p|]|p]; simpl; lia.
Qed.

Lemma iter_shr_1_nonneg (p : positive) :
  forall mrs, (0 <= shr_m mrs -> 0 <= shr_m (SpecFloat.iter_pos shr_1 p mrs))%Z.
Proof.
  induction p as [p IH|p IH|]; intros mrs Hm; simpl;
    auto using shr_1_nonneg.
Qed.

Lemma shr_fexp_nonneg (m e : Z) (l : location) :
  (0 <= m -> 0 <= shr_m (shr_fexp 53 1024 m e l).1)%Z.
Proof.
  intros Hm. unfold shr_fexp, shr.
  assert (H0 : (0 <= shr_m (shr_record_of_loc m l))%Z)
    by (destruct l as [|[]]; simpl; exact Hm).
  destruct (fexp 53 1024 (Zdigits2 m + e) - e)%Z; simpl; auto using iter_shr_1_nonneg.
Qed.

Lemma round_nearest_even_nonneg (m : Z) (l : location) :
  (0 <= m -> 0 <= round_nearest_even m l)%Z.
Proof.
  intros Hm. destruct l as [|[]]; simpl; try lia. destruct (Z.even m); lia.
Qed.

Lemma binary_round_aux_not_nan (s : bool) (m : positive) (e : Z) (l : location) :
  binary_round_aux 53 1024 s (Zpos m) e l <> S754_nan.
Proof.
  unfold binary_round_aux.
  pose proof (shr_fexp_nonneg (Zpos m) e l ltac:(lia)) as H1.
  destruct (shr_fexp 53 1024 (Zpos m) e l) as [mrs1 e1]. simpl in H1.
  pose proof (shr_fexp_nonneg _ e1 loc_Exact
                (round_nearest_even_nonneg _ (loc_of_shr_record mrs1) H1)) as H2.
  destruct (shr_fexp 53 1024 _ e1 loc_Exact) as [mrs2 e2]. simpl in H2.
  destruct (shr_m mrs2); [discriminate | | lia].
  destruct (e2 <=? 1024 - 53)%Z; discriminate.
Qed.

Lemma binary_normalize_not_nan (m e : Z) (szero : bool) :
  binary_normalize 53 1024 m e szero <> S754_nan.
Proof.
  unfold binary_normalize, binary_round.
  destruct m; [discriminate| |];
    destruct (shl_align _ _ _); apply binary_round_aux_not_nan.
Qed.

Lemma times_1000_not_nan (x : spec_float) :
  number_isFinite x = true -> number_mul x number_1000 <> S754_nan.
Proof.
  destruct x as [s|s| |s m e]; try discriminate; intros _;
    unfold number_mul, number_1000, SFmul.
  apply binary_round_aux_not_nan.
Qed.

Lemma minus_one_not_nan (x : spec_float) :
  x <> S754_nan -> number_sub x number_one <> S754_nan.
Proof.
  intros Hx. destruct x as [s|s| |s m e]; try congruence; try discriminate.
  unfold number_sub, number_one, SFsub. apply binary_normalize_not_nan.
Qed.

Lemma seconds_to_ms_some (v : JsVal) (ms : spec_float) :
  seconds_to_ms v = Some ms ->
  exists seconds, v = VNum seconds /\ number_isFinite seconds = true
                  /\ ms = number_mul seconds number_1000.
Proof.
  destruct v; try discriminate. simpl.
  destruct (number_isFinite x) eqn:F; [|discriminate].
  intros E. injection E as <-. eauto.
Qed.

(** X8. A wait that [getTelegramRetryAfterMs] returns is a [retry_after]
    that is a finite number, times 1000, and it is never NaN (it is infinite
    when the product overflows): strings, booleans, NaN and the infinities
    in [retry_after] all give undefined. *)
Theorem getTelegramRetryAfterMs_is_never_NaN (h : Heap) (e : JsVal) (ms : spec_float) :
  getTelegramRetryAfterMs h e = Some ms ->
  (exists seconds, number_isFinite seconds = true
                   /\ ms = number_mul seconds number_1000)
  /\ ms <> S754_nan.
Proof.
  unfold getTelegramRetryAfterMs.
  destruct (negb (toBoolean e) || negb (is_object_type (typeof h e))); [discriminate|].
  intros E. apply seconds_to_ms_some in E as (seconds & _ & F & ->).
  split; [eauto | apply times_1000_not_nan; exact F].
Qed.

Lemma getTelegramRetryAfterMs_never_NaN_witness :
  getTelegramRetryAfterMs direct_heap (VObj 1) = Some (number_of_Z 5000)
  /\ number_of_Z 5000 <> S754_nan.
Proof.
  split; [reflexivity|].
  apply (getTelegramRetryAfterMs_is_never_NaN direct_heap (VObj 1) (number_of_Z 5000) eq_refl).
Defined.

(** X9. The maximum that the two [onRetry] hooks print after the slash,
    [Math.max(1, info.maxAttempts - 1)], is at least 1 whenever
    [maxAttempts] is not NaN, also for [maxAttempts] 1, 0 or negative. *)
Theorem maxRetries_is_at_least_one (info : RetryAttemptInfo) :
  maxAttempts info <> S754_nan ->
  SFleb number_one (maxRetries info) = true.
Proof.
  intros Hm. unfold maxRetries.
  pose proof (minus_one_not_nan _ Hm) as Hs.
  destruct (number_sub (maxAttempts info) number_one) as [s|s| |s m e] eqn:E;
    try congruence; unfold Math_max, number_one.
  - reflexivity.
  - destruct s; reflexivity.
  - match goal with |- context [SFltb ?a ?b] => destruct (SFltb a b) eqn:L end;
      [|reflexivity].
    unfold SFltb in L. unfold SFleb.
    destruct (SFcompare _ _) as [[]|]; try discriminate. reflexivity.
Qed.

Lemma maxRetries_witness :
  SFleb number_one (maxRetries sample_info) = true
  /\ NumberToString (maxRetries {| attempt := number_of_Z 1; maxAttempts := number_of_Z 1;
                                   delayMs := number_of_Z 400; label := None;
                                   err := VNull |}) = "1".
Proof.
  split; [|reflexivity].
  apply (maxRetries_is_at_least_one sample_info). discriminate.
Defined.

(** ** The retry pattern of Telegram *)

Lemma prefix_app (s t : string) : String.prefix s (s +:+ t) = true.
Proof.
  induction s as [|c s IH]; simpl; [destruct t; reflexivity|].
  destruct (ascii_dec c c); [exact IH | congruence].
Qed.

Lemma includes_prefix (s sub : string) :
  String.prefix sub s = true -> includes s sub = true.
Proof. intros E. destruct s; cbn [includes]; rewrite E; reflexivity. Qed.

Lemma includes_middle (pre mid post : string) :
  includes (pre +:+ mid +:+ post) mid = true.
Proof.
  induction pre as [|c pre IH].
  - apply includes_prefix. apply (prefix_app mid post).
  - simpl. rewrite IH. apply orb_true_r.
Qed.

Section Telegram.
Context `{Imports}.

(** X10. The default pattern of the Telegram runner cannot be switched off: an
    error whose formatted message contains, in any letter case, one of 429,
    timeout, connect, reset, closed, unavailable, temporarily is retried
    whatever the [shouldRetry] of the caller says; that predicate only adds
    errors to retry, and without a match and without its consent nothing is
    retried. *)
Theorem telegram_shouldRetry_only_widens
    (params : TelegramParams) (h : Heap) (e : JsVal) :
  (forall pre word post,
     formatErrorMessage h e = pre +:+ word +:+ post ->
     In (toLowerCase word)
        [ "429"; "timeout"; "connect"; "reset"; "closed"; "unavailable"; "temporarily" ] ->
     telegram_shouldRetry params h e = true)
  /\ (forall custom, t_shouldRetry params = Some custom -> custom h e = true ->
        telegram_shouldRetry params h e = true)
  /\ (TELEGRAM_RETRY_RE_test (formatErrorMessage h e) = false ->
      (forall custom, t_shouldRetry params = Some custom -> custom h e = false) ->
        telegram_shouldRetry params h e = false).
Proof.
  split; [|split].
  - intros pre word post Hmsg Hin.
    assert (Hre : TELEGRAM_RETRY_RE_test (formatErrorMessage h e) = true).
    { unfold TELEGRAM_RETRY_RE_test. apply existsb_exists.
      exists (toLowerCase word). split; [exact Hin|].
      rewrite Hmsg. unfold toLowerCase. rewrite !string_map_app.
      apply includes_middle. }
    unfold telegram_shouldRetry. rewrite Hre.
    destruct (t_shouldRetry params); [apply orb_true_r | reflexivity].
  - intros custom Ec Et. unfold telegram_shouldRetry. rewrite Ec, Et. reflexivity.
  - intros Hre Hc. unfold telegram_shouldRetry. rewrite Hre.
    destruct (t_shouldRetry params) as [custom|]; [|reflexivity].
    rewrite (Hc custom eq_refl). reflexivity.
Qed.

End Telegram.

(** A caller that refuses every error still sees "Request TimeOut" retried. *)
Lemma telegram_shouldRetry_witness :
  telegram_shouldRetry
    {| t_retry := None; t_configRetry := None; t_verbose := None;
       t_shouldRetry := Some (fun _ _ => false) |}
    message_heap (VStr "Request TimeOut (ETIMEDOUT)") = true.
Proof.
  apply (proj1 (telegram_shouldRetry_only_widens _ message_heap
                  (VStr "Request TimeOut (ETIMEDOUT)")) "Request " "TimeOut" " (ETIMEDOUT)").
  - reflexivity.
  - simpl. auto.
Defined.

(** ** Nested logging wrappers *)

Section Nested.
Context `{Imports} {World : Type} `{Host World}.


End Nested.


End RunnerProperties.

(* ===================================================================== *)
(** * Message matching *)
(* ===================================================================== *)

Module MessageProperties.
Import Js NetworkErrors JsFacts ChainProperties NormalizeProperties RunnerProperties Samples.

Lemma append_empty (s t : string) : s +:+ t = "" -> s = "" /\ t = "".
Proof. destruct s; simpl; [auto | discriminate]. Qed.

Lemma snippet_nonempty (s : string) :
  In s RECOVERABLE_MESSAGE_SNIPPETS -> s <> "".
Proof.
  simpl. intros Hin. repeat destruct Hin as [<-|Hin]; try discriminate. contradiction.
Qed.

Section Messages.
Context `{Imports}.

Lemma message_signal_contains (h : Heap) (c : JsVal) (pre word post : string) :
  formatErrorMessage h c = pre +:+ word +:+ post ->
  In (toLowerCase word) RECOVERABLE_MESSAGE_SNIPPETS ->
  message_signal h c = true.
Proof.
  intros Hmsg Hin. unfold message_signal. rewrite Hmsg.
  unfold toLowerCase in *. rewrite !string_map_app.
  apply andb_true_iff. split.
  - unfold nonempty. apply negb_true_iff. apply String.eqb_neq. intros E.
    apply append_empty in E as [_ E]. apply append_empty in E as [E _].
    exact (snippet_nonempty _ Hin E).
  - apply existsb_exists. eexists. split; [exact Hin|]. apply includes_middle.
Qed.


End Messages.


End MessageProperties.
